(** * update_stats.py: the ADIF parser, the statistics and the logbook export

    A shallow embedding of [parse_adif], [compute_stats] and
    [build_logbook_csv] of [update_stats.py], and the properties of the
    written specification checked against it; then of [update_html],
    [update_logbook_csv], [fetch_qsos] and [main], with further properties
    read off the code.

    Modelling conventions.
    - Python text is a Rocq [string]; a character stands for the ASCII code
      point of the same number.  The character classes of [re] and of
      [str.strip], and the case mappings, are the ASCII ones; a character
      above 127 is in no class and has no case.
    - A contact record (a Python [dict] from field name to value) is a
      [gmap string string]; the sets of [compute_stats] are [gset string].
    - [sys.exit] after a [print] and an uncaught exception are outcomes of
      their own, see [outcome].
    - [int] is the unbounded integer conversion of the language, as on an
      interpreter without a bound on the digits.  The bound of CPython 3.11
      and later, 4300 digits unless it is changed, is [int_limited], and
      [Rt.parse_adif cpython] is the parser on it.
    - What the character classes of the interpreter change above 127 is
      read off [Rt.parse_adif cpython_latin1], the parser on Latin-1 text.
    - A file reads and writes as long as it exists: the refusals of the
      operating system are not modelled, and the properties of [main] are
      stated of a run by the way it ends. *)

From Stdlib Require Import Ascii String NArith DecimalString DecimalNat.
From stdpp Require Import gmap strings list sorting.

Local Open Scope string_scope.

(** ** Characters *)

Module Char.

Definition code (c : ascii) : N := N_of_ascii c.

Definition between (lo hi : N) (c : ascii) : bool :=
  ((lo <=? code c) && (code c <=? hi))%N.

(** [str.isspace] below 128: TAB..CR, FS..US and the space.  This is the
    class that [str.strip] removes and that [\s] matches. *)
Definition is_space (c : ascii) : bool := between 9 13 c || between 28 32 c.

(** [\d] *)
Definition is_digit (c : ascii) : bool := between 48 57 c.

Definition is_upper (c : ascii) : bool := between 65 90 c.
Definition is_lower (c : ascii) : bool := between 97 122 c.

(** [\w]: letters, digits and the underscore. *)
Definition is_word (c : ascii) : bool :=
  is_upper c || is_lower c || is_digit c || (code c =? 95)%N.

Definition is_hex (c : ascii) : bool :=
  is_digit c || between 65 70 c || between 97 102 c.

Definition upper (c : ascii) : ascii :=
  if is_lower c then ascii_of_N (code c - 32) else c.

Definition lower (c : ascii) : ascii :=
  if is_upper c then ascii_of_N (code c + 32) else c.

Definition digit_value (c : ascii) : N := (code c - 48)%N.

Definition hex_value (c : ascii) : N :=
  if is_digit c then (code c - 48)%N
  else if between 65 70 c then (code c - 55)%N
  else (code c - 87)%N.

Definition eqb_nocase (a b : ascii) : bool := Ascii.eqb (lower a) (lower b).

End Char.

(** ** Text operations of the Python run time *)

(** [s.upper()], [s.lower()] *)
Fixpoint upper (s : string) : string :=
  match s with
  | "" => ""
  | String c s' => String (Char.upper c) (upper s')
  end.

Fixpoint lower (s : string) : string :=
  match s with
  | "" => ""
  | String c s' => String (Char.lower c) (lower s')
  end.

(** [not s] *)
Definition is_empty (s : string) : bool :=
  match s with "" => true | _ => false end.

Fixpoint lstrip (s : string) : string :=
  match s with
  | "" => ""
  | String c s' => if Char.is_space c then lstrip s' else s
  end.

Fixpoint rstrip (s : string) : string :=
  match s with
  | "" => ""
  | String c s' =>
      let r := rstrip s' in
      if is_empty r && Char.is_space c then "" else String c r
  end.

(** [s.strip()] *)
Definition strip (s : string) : string := rstrip (lstrip s).

(** [s[:n]] for [n >= 0] *)
Fixpoint take (n : nat) (s : string) : string :=
  match n, s with
  | S n', String c s' => String c (take n' s')
  | _, _ => ""
  end.

(** [s[n:]] for [n >= 0] *)
Fixpoint drop (n : nat) (s : string) : string :=
  match n, s with
  | S n', String _ s' => drop n' s'
  | _, _ => s
  end.

(** [s[lo:hi]] for [0 <= lo <= hi] *)
Definition slice (lo hi : nat) (s : string) : string := take (hi - lo) (drop lo s).

(** [s.startswith(p)], returning what follows the prefix. *)
Fixpoint strip_prefix (p s : string) : option string :=
  match p, s with
  | "", _ => Some s
  | String a p', String b s' => if Ascii.eqb a b then strip_prefix p' s' else None
  | _, _ => None
  end.

(** The same, letters compared without case ([re.IGNORECASE]). *)
Fixpoint strip_prefix_nocase (p s : string) : option string :=
  match p, s with
  | "", _ => Some s
  | String a p', String b s' =>
      if Char.eqb_nocase a b then strip_prefix_nocase p' s' else None
  | _, _ => None
  end.

(** [sub in s] *)
Fixpoint contains (sub s : string) : bool :=
  match strip_prefix sub s with
  | Some _ => true
  | None => match s with "" => false | String _ s' => contains sub s' end
  end.

(** The same as a proposition: [sub] occurs somewhere in [s]. *)
Definition occurs_in (sub s : string) : Prop := ∃ a b, s = a ++ sub ++ b.

(** The longest prefix of characters in a class, and what follows it: a
    greedy [[class]*]. *)
Fixpoint span (p : ascii -> bool) (s : string) : string * string :=
  match s with
  | "" => ("", "")
  | String c s' =>
      if p c then let '(a, b) := span p s' in (String c a, b) else ("", s)
  end.

(** A greedy [[class]+]: [None] when no character matches. *)
Definition span1 (p : ascii -> bool) (s : string) : option (string * string) :=
  let '(a, b) := span p s in if is_empty a then None else Some (a, b).

(** [int(s)] on a string of decimal digits.  [None] is [ValueError]: the
    empty string and any character that is not a digit.  (The signs, blanks
    and underscores that [int] also accepts never reach it here and are
    counted as errors.) *)
Fixpoint int_digits (acc : N) (s : string) : option N :=
  match s with
  | "" => Some acc
  | String c s' =>
      if Char.is_digit c then int_digits (10 * acc + Char.digit_value c) s'
      else None
  end.

Definition int (s : string) : option N :=
  if is_empty s then None else int_digits 0 s.

(** ** Outcome of a call *)

Inductive outcome (A : Type) : Type :=
| Return (a : A)
| SysExit (printed : string) (status : nat)
| Raised (exception : string).
Arguments Return {A} a.
Arguments SysExit {A} printed status.
Arguments Raised {A} exception.

(** ** The regular expressions of [parse_adif]

    Each pattern is modelled by the scanner it denotes.  In every pattern a
    greedy run (of word characters, of digits, of characters other than
    the ampersand or other than the opening bracket) is followed by a
    literal that is not in the run's class, or by nothing, so giving back
    characters of the run can never make the rest match: the longest run is
    the only one to try. *)

Definition is_amp (c : ascii) : bool := Ascii.eqb c "&".
Definition is_lt (c : ascii) : bool := Ascii.eqb c "<".
Definition is_percent (c : ascii) : bool := Ascii.eqb c "%".

(** [re.search(pattern, s)]: the leftmost position at which the pattern
    matches, [match_at] being the match of the pattern at the start of a
    text. *)
Fixpoint search {A} (match_at : string → option A) (s : string) : option A :=
  match match_at s with
  | Some m => Some m
  | None => match s with "" => None | String _ s' => search match_at s' end
  end.

(** REASON= followed by one or more characters other than the ampersand,
    matched at the start of [raw]: group 1, that run of characters. *)
Definition match_reason (raw : string) : option string :=
  rest ← strip_prefix "REASON=" raw;
  '(reason, _) ← span1 (λ c, negb (is_amp c)) rest;
  Some reason.

Definition search_reason (raw : string) : option string :=
  search match_reason raw.

(** ADIF= followed by any text, with [re.DOTALL]: group 1 runs to the end of
    the text. *)
Definition search_adif (raw : string) : option string :=
  search (strip_prefix "ADIF=") raw.

(** The optional group of a colon and a type, then the closing bracket. *)
Definition match_type (s : string) : option string :=
  s1 ← strip_prefix ":" s;
  '(_, s2) ← span1 Char.is_word s1;
  Some s2.

Definition match_close (s : string) : option string :=
  match match_type s ≫= strip_prefix ">" with
  | Some rest => Some rest
  | None => strip_prefix ">" s
  end.

(** The field pattern matched at the start of [s]: an opening bracket, a
    name (group 1, word characters), a colon, a length (group 2, digits),
    the optional type, the closing bracket and a value (group 3, the
    characters up to the next opening bracket).  The result is the three
    groups and the text after the match. *)
Definition match_field (s : string) : option (string * string * string * string) :=
  s1 ← strip_prefix "<" s;
  '(name, s2) ← span1 Char.is_word s1;
  s3 ← strip_prefix ":" s2;
  '(len, s4) ← span1 Char.is_digit s3;
  s5 ← match_close s4;
  let '(value, rest) := span (λ c, negb (is_lt c)) s5 in
  Some (name, len, value, rest).

(** [re.findall] of the field pattern in [record], with [re.IGNORECASE]:
    the matches from left to right, each search starting where the previous
    match ended.  [skip] counts the characters of the current match that are
    still to be passed over.  (No letter occurs in the pattern, so
    [IGNORECASE] changes nothing.) *)
Fixpoint findall_from (skip : nat) (record : string)
  : list (string * string * string) :=
  match record with
  | "" => []
  | String _ record' =>
      match skip with
      | S k => findall_from k record'
      | O =>
          match match_field record with
          | Some (name, len, value, rest) =>
              (name, len, value)
                :: findall_from (String.length record' - String.length rest) record'
          | None => findall_from 0 record'
          end
      end
  end.

Definition findall (record : string) : list (string * string * string) :=
  findall_from 0 record.

(** [re.split] of [adif_data] at the marker <eor>, with [re.IGNORECASE]: the
    pieces between the matches, from left to right; [n] matches give [n + 1] pieces. *)
Fixpoint split_from (skip : nat) (adif_data : string) : list string :=
  match adif_data with
  | "" => [""]
  | String c rest =>
      match skip with
      | S k => split_from k rest
      | O =>
          match strip_prefix_nocase "<eor>" adif_data with
          | Some _ => "" :: split_from 4 rest
          | None =>
              match split_from 0 rest with
              | piece :: pieces => String c piece :: pieces
              | [] => [String c ""]
              end
          end
      end
  end.

Definition split_eor (adif_data : string) : list string := split_from 0 adif_data.

(** [urllib.parse.unquote]: every [%XX] with two hexadecimal digits becomes
    the character of that code, everything else is kept ([+] included).
    The library then decodes the bytes as UTF-8; below 128 that changes
    nothing, and escapes of 128 and above stay as the byte they denote
    (bytes that are no UTF-8 become U+FFFD in the library, which is not
    modelled). *)
Fixpoint unquote_from (skip : nat) (s : string) : string :=
  match s with
  | "" => ""
  | String c s' =>
      match skip with
      | S k => unquote_from k s'
      | O =>
          match s' with
          | String h (String l _) =>
              if is_percent c && Char.is_hex h && Char.is_hex l
              then String (ascii_of_N (16 * Char.hex_value h + Char.hex_value l))
                     (unquote_from 2 s')
              else String c (unquote_from 0 s')
          | _ => String c (unquote_from 0 s')
          end
      end
  end.

Definition unquote (s : string) : string := unquote_from 0 s.

(** ** [parse_adif] *)

(** [qso[name.upper()] = value[:int(length)].strip()] *)
Definition store_field (qso : gmap string string) (field : string * string * string)
  : option (gmap string string) :=
  let '(name, length, value) := field in
  n ← int length;
  Some (<[upper name := strip (take (N.to_nat n) value)]> qso).

(** [for name, length, value in fields: ...] *)
Fixpoint fields_loop (fields : list (string * string * string))
    (qso : gmap string string) : option (gmap string string) :=
  match fields with
  | [] => Some qso
  | field :: fields' => store_field qso field ≫= fields_loop fields'
  end.

(** [for record in records: ...], [qsos] being the list built so far. *)
Fixpoint records_loop (records : list string) (qsos : list (gmap string string))
  : option (list (gmap string string)) :=
  match records with
  | [] => Some qsos
  | record :: records' =>
      if is_empty (strip record) then records_loop records' qsos
      else
        qso ← fields_loop (findall record) ∅;
        records_loop records'
          (if decide (qso = ∅) then qsos else qsos ++ [qso])
  end.

(** The second half of [parse_adif], from the ADIF text on. *)
Definition parse_records (adif_data : string) : option (list (gmap string string)) :=
  records_loop (split_eor adif_data) [].

(** The text that [parse_adif] takes as ADIF. *)
Definition adif_payload (raw : string) : string :=
  match search_adif raw with
  | None => raw
  | Some rest => unquote rest
  end.

(** The reason printed on failure. *)
Definition failure_reason (raw : string) : string :=
  match search_reason raw with
  | Some reason => reason
  | None => "desconocido"
  end.

Definition parse_adif (raw : string) : outcome (list (gmap string string)) :=
  if contains "RESULT=FAIL" raw then
    SysExit ("Error de QRZ: " ++ failure_reason raw) 1
  else
    match parse_records (adif_payload raw) with
    | Some qsos => Return qsos
    | None => Raised "ValueError"
    end.

(** ** [parse_adif] on the primitives of the interpreter

    The functions above read every character as ASCII and take [int]
    without a bound on the digits.  What [parse_adif] does with the
    primitives of the interpreter is said here: the same functions, line by
    line, with the four primitives that they call as parameters. *)

(** The primitives: the class of [\w], the class of the blanks that
    [str.strip] removes, [str.upper] and [int]. *)
Record runtime : Type := {
  rt_word : ascii → bool;
  rt_space : ascii → bool;
  rt_upper : string → string;
  rt_int : string → option N;
}.

Module Rt.
Section primitives.
Variable rt : runtime.

Fixpoint lstrip (s : string) : string :=
  match s with
  | "" => ""
  | String c s' => if rt_space rt c then lstrip s' else s
  end.

Fixpoint rstrip (s : string) : string :=
  match s with
  | "" => ""
  | String c s' =>
      let r := rstrip s' in
      if is_empty r && rt_space rt c then "" else String c r
  end.

(** [s.strip()] *)
Definition strip (s : string) : string := rstrip (lstrip s).

(** The optional group of a colon and a type, then the closing bracket. *)
Definition match_type (s : string) : option string :=
  s1 ← strip_prefix ":" s;
  '(_, s2) ← span1 (rt_word rt) s1;
  Some s2.

Definition match_close (s : string) : option string :=
  match match_type s ≫= strip_prefix ">" with
  | Some rest => Some rest
  | None => strip_prefix ">" s
  end.

(** The field pattern matched at the start of [s].  The digits of a length
    are the ten ASCII digits: no other digit has a code below 256. *)
Definition match_field (s : string) : option (string * string * string * string) :=
  s1 ← strip_prefix "<" s;
  '(name, s2) ← span1 (rt_word rt) s1;
  s3 ← strip_prefix ":" s2;
  '(len, s4) ← span1 Char.is_digit s3;
  s5 ← match_close s4;
  let '(value, rest) := span (λ c, negb (is_lt c)) s5 in
  Some (name, len, value, rest).

(** [re.findall] of the field pattern in [record]. *)
Fixpoint findall_from (skip : nat) (record : string)
  : list (string * string * string) :=
  match record with
  | "" => []
  | String _ record' =>
      match skip with
      | S k => findall_from k record'
      | O =>
          match match_field record with
          | Some (name, len, value, rest) =>
              (name, len, value)
                :: findall_from (String.length record' - String.length rest) record'
          | None => findall_from 0 record'
          end
      end
  end.

Definition findall (record : string) : list (string * string * string) :=
  findall_from 0 record.

(** [qso[name.upper()] = value[:int(length)].strip()] *)
Definition store_field (qso : gmap string string) (field : string * string * string)
  : option (gmap string string) :=
  let '(name, length, value) := field in
  n ← rt_int rt length;
  Some (<[rt_upper rt name := strip (take (N.to_nat n) value)]> qso).

(** [for name, length, value in fields: ...] *)
Fixpoint fields_loop (fields : list (string * string * string))
    (qso : gmap string string) : option (gmap string string) :=
  match fields with
  | [] => Some qso
  | field :: fields' => store_field qso field ≫= fields_loop fields'
  end.

(** [for record in records: ...], [qsos] being the list built so far. *)
Fixpoint records_loop (records : list string) (qsos : list (gmap string string))
  : option (list (gmap string string)) :=
  match records with
  | [] => Some qsos
  | record :: records' =>
      if is_empty (strip record) then records_loop records' qsos
      else
        qso ← fields_loop (findall record) ∅;
        records_loop records'
          (if decide (qso = ∅) then qsos else qsos ++ [qso])
  end.

(** The second half of [parse_adif], from the ADIF text on.  The marker
    <eor> is split at as above: no character other than the six ASCII
    letters matches [e], [o] or [r] without case. *)
Definition parse_records (adif_data : string) : option (list (gmap string string)) :=
  records_loop (split_eor adif_data) [].

Definition parse_adif (raw : string) : outcome (list (gmap string string)) :=
  if contains "RESULT=FAIL" raw then
    SysExit ("Error de QRZ: " ++ failure_reason raw) 1
  else
    match parse_records (adif_payload raw) with
    | Some qsos => Return qsos
    | None => Raised "ValueError"
    end.

End primitives.
End Rt.

(** The primitives as the functions above take them: ASCII classes and an
    [int] without bound. *)
Definition ascii_unbounded : runtime :=
  {| rt_word := Char.is_word; rt_space := Char.is_space;
     rt_upper := upper; rt_int := int |}.

(** The bound of CPython 3.11 and later on the digits of a text that [int]
    converts ([sys.int_info.default_max_str_digits]): a text of more digits,
    leading zeros counted, raises [ValueError]. *)
Definition max_str_digits : nat := 4300.

Definition int_limited (s : string) : option N :=
  if (String.length s <=? max_str_digits)%nat then int s else None.

(** The interpreter on ASCII text. *)
Definition cpython : runtime :=
  {| rt_word := Char.is_word; rt_space := Char.is_space;
     rt_upper := upper; rt_int := int_limited |}.

(** The interpreter on Latin-1 text: a character stands for the code point
    of the same number, below 256.  The classes are those of [\w], of
    [str.isspace] and of [str.islower] on these code points, and [upper] is
    [str.upper], which turns the sharp s (223) into two letters.  The
    capital letters of the micro sign (181) and of the y with diaeresis
    (255) lie above 255: the two are left as they are, and a text that has
    one of them in a field name is outside this reading. *)
Module Latin1.

Definition is_word (c : ascii) : bool :=
  Char.is_word c
  || (Char.code c =? 170)%N || Char.between 178 179 c || (Char.code c =? 181)%N
  || Char.between 185 186 c || Char.between 188 190 c
  || Char.between 192 214 c || Char.between 216 246 c || Char.between 248 255 c.

Definition is_space (c : ascii) : bool :=
  Char.is_space c || (Char.code c =? 133)%N || (Char.code c =? 160)%N.

Definition is_lower (c : ascii) : bool :=
  Char.is_lower c
  || (Char.code c =? 170)%N || (Char.code c =? 181)%N || (Char.code c =? 186)%N
  || Char.between 223 246 c || Char.between 248 255 c.

Definition upper_char (c : ascii) : string :=
  if Char.is_lower c || Char.between 224 246 c || Char.between 248 254 c
  then String (ascii_of_N (Char.code c - 32)) ""
  else if (Char.code c =? 223)%N then "SS"
  else String c "".

Fixpoint upper (s : string) : string :=
  match s with
  | "" => ""
  | String c s' => upper_char c ++ upper s'
  end.

End Latin1.

Definition cpython_latin1 : runtime :=
  {| rt_word := Latin1.is_word; rt_space := Latin1.is_space;
     rt_upper := Latin1.upper; rt_int := int_limited |}.

(** ** [compute_stats] *)

(** [qso.get(key, default)] *)
Definition get (qso : gmap string string) (key dflt : string) : string :=
  default dflt (qso !! key).

(** [a or b] on text: [a] unless it is empty. *)
Definition py_or (a b : string) : string := if is_empty a then b else a.

(** [sorted(s)] of a set of text: ascending by code point. *)
Definition sorted (s : gset string) : list string :=
  merge_sort String.le (elements s).

(** The body of the loop of [compute_stats], on the three sets. *)
Definition stats_step (sets : gset string * gset string * gset string)
    (qso : gmap string string) : gset string * gset string * gset string :=
  let '(countries, bands, modes) := sets in
  let country := py_or (get qso "COUNTRY" "") (get qso "DXCC" "") in
  let countries := if is_empty country then countries else {[country]} ∪ countries in
  let band := get qso "BAND" "" in
  let bands := if is_empty band then bands else {[lower band]} ∪ bands in
  let mode := get qso "MODE" "" in
  let modes := if is_empty mode then modes else {[upper mode]} ∪ modes in
  (countries, bands, modes).

Definition stats_loop (qsos : list (gmap string string))
  : gset string * gset string * gset string :=
  foldl stats_step (∅, ∅, ∅) qsos.

(** The dictionary that [compute_stats] returns, by key. *)
Record stats : Type := {
  total : nat;
  countries : nat;
  bands : nat;
  modes : nat;
  country_list : list string;
  band_list : list string;
  mode_list : list string;
}.

Definition compute_stats (qsos : list (gmap string string)) : stats :=
  let '(countries, bands, modes) := stats_loop qsos in
  {| total := length qsos;
     countries := size countries;
     bands := size bands;
     modes := size modes;
     country_list := sorted countries;
     band_list := sorted bands;
     mode_list := sorted modes |}.

(** ** [build_logbook_csv] *)

Definition newline : string := String (ascii_of_nat 10) "".

(** The date of a row: [date[6:8]/date[4:6]/date[0:4]] when [len(date) == 8]. *)
Definition format_date (date : string) : string :=
  if Nat.eqb (String.length date) 8
  then slice 6 8 date ++ "/" ++ slice 4 6 date ++ "/" ++ slice 0 4 date
  else date.

(** The line of one record; [None] is the [continue] of a record without
    call sign. *)
Definition csv_row (qso : gmap string string) : option string :=
  let call := upper (get qso "CALL" "") in
  if is_empty call then None
  else
    let date := format_date (get qso "QSO_DATE" "") in
    let band := get qso "BAND" "?" in
    let mode := get qso "MODE" "?" in
    Some (call ++ "," ++ date ++ "," ++ band ++ "," ++ mode).

(** [for qso in qsos: ...], [lines] being the list built so far. *)
Fixpoint rows_loop (qsos : list (gmap string string)) (lines : list string)
  : list string :=
  match qsos with
  | [] => lines
  | qso :: qsos' =>
      rows_loop qsos'
        (match csv_row qso with Some line => lines ++ [line] | None => lines end)
  end.

(** The list [lines] at the end of [build_logbook_csv]. *)
Definition csv_lines (qsos : list (gmap string string)) : list string :=
  rows_loop qsos ["indicativo,fecha,banda,modo"].

Definition build_logbook_csv (qsos : list (gmap string string)) : string :=
  String.concat newline (csv_lines qsos) ++ newline.

(** ** [update_html]

    The page is a text as the parser's raw input is: the classes of the
    digits and of the blanks are the ASCII ones, and a character outside
    ASCII, as the accented letter of a label, is the bytes of its UTF-8
    encoding. *)

(** [str(n)] of a count: its decimal digits. *)
Definition str (n : nat) : string := NilEmpty.string_of_uint (Nat.to_uint n).

(** The double quote, and the two opening tags of a statistic of the page. *)
Definition double_quote : string := String (ascii_of_nat 34) "".

Definition stat_number_open : string :=
  Eval vm_compute in "<div class=" ++ double_quote ++ "stat-number" ++ double_quote ++ ">".

Definition stat_label_open : string :=
  Eval vm_compute in "<div class=" ++ double_quote ++ "stat-label" ++ double_quote ++ ">".

(** The pattern of [update_html] for [label], matched at the start of [s]:
    the opening tag of the number (group 1), one or more digits, and, as
    group 2, the closing tag, any blanks, the opening tag of the label and
    the label.  The result is the two groups and the text after the match.
    Neither a digit nor a blank is an opening bracket, so the two greedy
    runs can be taken whole. *)
Definition match_stat (label s : string) : option (string * string * string) :=
  s1 ← strip_prefix stat_number_open s;
  '(_, s2) ← span1 Char.is_digit s1;
  s3 ← strip_prefix "</div>" s2;
  let '(blanks, s4) := span Char.is_space s3 in
  s5 ← strip_prefix stat_label_open s4;
  rest ← strip_prefix label s5;
  Some (stat_number_open, "</div>" ++ blanks ++ stat_label_open ++ label, rest).

(** [re.subn(pattern, replacement, html)] for that pattern and the
    replacement of group 1, [value] and group 2: the new text and the number
    of matches replaced, the search going on where a match ended.  [skip]
    counts the characters of the current match still to be passed over. *)
Fixpoint subn_from (label value : string) (skip : nat) (html : string)
  : string * nat :=
  match html with
  | "" => ("", 0%nat)
  | String c html' =>
      match skip with
      | S k => subn_from label value k html'
      | O =>
          match match_stat label html with
          | Some (group1, group2, rest) =>
              let '(out, count) :=
                subn_from label value
                  (String.length html' - String.length rest) html' in
              (group1 ++ value ++ group2 ++ out, S count)
          | None =>
              let '(out, count) := subn_from label value 0 html' in
              (String c out, count)
          end
      end
  end.

Definition subn (label value html : string) : string * nat :=
  subn_from label value 0 html.

(** The dictionary [replacements], in the order of its keys. *)
Definition replacements (stats : stats) : list (string * string) :=
  [ ("QSOs Totales", str (total stats));
    ("Países", str (countries stats));
    ("Bandas", str (bands stats));
    ("Modos", str (modes stats)) ].

(** The line printed for a label: [if count: ... else: ...]. *)
Definition report (label value : string) (count : nat) : string :=
  match count with
  | O => "  ✗ No se encontró '" ++ label ++ "' en el HTML"
  | S _ => "  ✓ " ++ label ++ ": " ++ value
  end.

(** [for label, value in replacements.items(): ...], on the text of the
    page and the lines printed so far. *)
Fixpoint replace_loop (items : list (string * string)) (html : string)
    (printed : list string) : string * list string :=
  match items with
  | [] => (html, printed)
  | (label, value) :: items' =>
      let '(html', count) := subn label value html in
      replace_loop items' html' (printed ++ [report label value count])
  end.

(** [update_html] on the text read from [index.html]: the text written
    back and the lines printed. *)
Definition update_html (stats : stats) (html : string) : string * list string :=
  replace_loop (replacements stats) html [].

(** ** [main] and the steps that act on the world *)

(** What the program sees of the world: the lines printed (the argument
    of each [print], in order) and the two files, [None] for a file that
    does not exist.  A file that exists can be read and any file can be
    written: permissions, directories and the encoding of the files are
    not modelled. *)
Record world : Type := {
  stdout : list string;
  index_html : option string;
  logbook_csv : option string;
}.

(** A step of the program: the world after it and how it ended. *)
Definition action (A : Type) : Type := world → world * outcome A.

Definition action_ret {A} (a : A) : action A := λ w, (w, Return a).

Definition action_bind {A B} (f : A → action B) (m : action A) : action B :=
  λ w,
    match m w with
    | (w', Return a) => f a w'
    | (w', SysExit printed status) => (w', SysExit printed status)
    | (w', Raised exception) => (w', Raised exception)
    end.

#[global] Instance action_mret : MRet action := @action_ret.
#[global] Instance action_mbind : MBind action := @action_bind.

(** [print(line)] *)
Definition print (line : string) : action unit :=
  λ w, ({| stdout := stdout w ++ [line];
           index_html := index_html w;
           logbook_csv := logbook_csv w |}, Return tt).

(** [print(line)] and then [sys.exit(status)] *)
Definition print_exit {A} (line : string) (status : nat) : action A :=
  λ w, ({| stdout := stdout w ++ [line];
           index_html := index_html w;
           logbook_csv := logbook_csv w |}, SysExit line status).

(** What the request to QRZ gives: the text of the answer, decoded, or the
    text of the exception raised on the way. *)
Inductive response : Type :=
| Answer (text : string)
| Failure (exception : string).

(** [fetch_qsos]: [qrz] is the service, what the request for all the
    records made with a key gives. *)
Definition fetch_qsos (qrz : string → response) (api_key : string) : action string :=
  match qrz api_key with
  | Answer text => mret text
  | Failure exception => print_exit ("Error conectando a QRZ: " ++ exception) 1
  end.

(** [parse_adif] as a step, on the [int] of the interpreter: its message is
    printed. *)
Definition parse_adif_step (raw : string) : action (list (gmap string string)) :=
  match Rt.parse_adif cpython raw with
  | Return qsos => mret qsos
  | SysExit printed status => print_exit printed status
  | Raised exception => λ w, (w, Raised exception)
  end.

(** [update_html] as a step: [index.html] is read, which raises when the
    file does not exist, the lines are printed and the file is written. *)
Definition update_html_step (stats : stats) : action unit :=
  λ w,
    match index_html w with
    | None => (w, Raised "FileNotFoundError")
    | Some html =>
        let '(html', printed) := update_html stats html in
        ({| stdout := stdout w ++ printed;
            index_html := Some html';
            logbook_csv := logbook_csv w |}, Return tt)
    end.

(** [update_logbook_csv]: the file is written, whether it was there or not. *)
Definition update_logbook_csv (csv_content : string) : action unit :=
  λ w, ({| stdout := stdout w;
           index_html := index_html w;
           logbook_csv := Some csv_content |}, Return tt).

(** The line of the summary for one dimension. *)
Definition summary_line (name : string) (count : nat) (values : list string)
  : string :=
  "  " ++ name ++ ": " ++ str count ++ " (" ++ String.concat ", " values ++ ")".

(** [main], from the point where the command line has given the key.  The
    parser is the one on the [int] of the interpreter. *)
Definition main (qrz : string → response) (api_key : string) : action unit :=
  print "📡 Descargando QSOs desde QRZ...";;
  raw ← fetch_qsos qrz api_key;
  print "📋 Parseando ADIF...";;
  qsos ← parse_adif_step raw;
  match qsos with
  | [] => print_exit "⚠️  No se encontraron QSOs. Verifica tu API key." 1
  | _ =>
      print ("📊 Calculando estadísticas de " ++ str (length qsos) ++ " QSOs...");;
      let stats := compute_stats qsos in
      print (newline ++ "--- Resumen ---");;
      print ("  QSOs totales: " ++ str (total stats));;
      print (summary_line "Países" (countries stats) (country_list stats));;
      print (summary_line "Bandas" (bands stats) (band_list stats));;
      print (summary_line "Modos" (modes stats) (mode_list stats));;
      print (newline ++ "✏️  Actualizando index.html...");;
      update_html_step stats;;
      print "✏️  Actualizando data/logbook.csv...";;
      update_logbook_csv (build_logbook_csv qsos);;
      print ("  ✓ " ++ str (length qsos) ++ " QSOs escritos en data/logbook.csv");;
      print (newline ++ "✅ Listo. Hace commit y push para actualizar la web.")
  end.

(** * The vocabulary of the specification

    The notions in which the properties below are stated: what the
    specification calls a tag, a chunk, a record of a chunk, a marker, a
    reason, the values that the statistics count and the rows of the
    export. *)

(** Every character of [s] is in the class [p]. *)
Definition all_chars (p : ascii → bool) (s : string) : bool :=
  forallb p (list_ascii_of_string s).

(** [s] starts with a character of the class [p]. *)
Definition starts_with (p : ascii → bool) (s : string) : Prop :=
  ∃ c s', s = String c s' ∧ p c = true.

(** A name or a type of a tag: one or more word characters. *)
Definition word1 (s : string) : Prop :=
  s ≠ "" ∧ all_chars Char.is_word s = true.

(** A length of a tag: one or more digits. *)
Definition digits1 (s : string) : Prop :=
  s ≠ "" ∧ all_chars Char.is_digit s = true.

(** A value: any characters but the opening bracket. *)
Definition no_lt (s : string) : Prop :=
  all_chars (λ c, negb (is_lt c)) s = true.

(** Where a value ends: at the end of the text or before an opening bracket. *)
Definition at_boundary (s : string) : Prop :=
  ¬ starts_with (λ c, negb (is_lt c)) s.

(** The optional part of a tag: nothing, or a colon and a type. *)
Definition type_suffix (ty : string) : Prop :=
  ty = "" ∨ ∃ t, ty = ":" ++ t ∧ word1 t.

(** A tag [<name:len>] or [<name:len:type>]. *)
Definition tag (name len ty : string) : string :=
  "<" ++ name ++ ":" ++ len ++ ty ++ ">".

(** The length that a tag declares, as a number (0 for a text that [int]
    refuses, which the length of a tag never is). *)
Definition declared_length (len : string) : nat :=
  N.to_nat (default 0%N (int len)).

(** What the parser is specified to store for a field: under the name in
    upper case, the value cut to the declared length and stripped. *)
Definition field_key (field : string * string * string) : string :=
  upper field.1.1.

Definition field_value (field : string * string * string) : string :=
  strip (take (declared_length field.1.2) field.2).

(** The record of a list of fields, a later field replacing an earlier one
    of the same key. *)
Definition record_of (fields : list (string * string * string))
  : gmap string string :=
  foldl (λ qso field, <[field_key field := field_value field]> qso) ∅ fields.

(** The record of a chunk, if it has a field. *)
Definition chunk_record (chunk : string) : option (gmap string string) :=
  match findall chunk with
  | [] => None
  | fields => Some (record_of fields)
  end.

(** The records of an ADIF text, chunk by chunk. *)
Definition records_of (adif_data : string) : list (gmap string string) :=
  omap chunk_record (split_eor adif_data).

(** An end-of-record marker, in any case of its letters. *)
Definition is_eor (m : string) : Prop := lower m = "<eor>".



(** Where a reason ends: at the end of the text or before an ampersand. *)
Definition at_amp (s : string) : Prop :=
  ¬ starts_with (λ c, negb (is_amp c)) s.

(** A reason: any characters but the ampersand. *)
Definition no_amp (s : string) : Prop :=
  all_chars (λ c, negb (is_amp c)) s = true.


(** What holds of a key and of a value of a record. *)
Definition clean_key (k : string) : Prop :=
  upper k = k ∧ word1 k ∧ all_chars (λ c, negb (Char.is_lower c)) k = true.

Definition clean_value (v : string) : Prop :=
  no_lt v
  ∧ ¬ starts_with Char.is_space v
  ∧ ∀ t c, v = t ++ String c "" → Char.is_space c = false.

(** [v] is what the last tag of key [k] in a chunk of [adif_data] gives:
    its value cut to its declared length [n] and stripped. *)
Definition last_tag_value (adif_data k v : string) : Prop :=
  ∃ chunk fields1 name len value fields2 n,
    chunk ∈ split_eor adif_data
    ∧ findall chunk = (fields1 ++ (name, len, value) :: fields2)%list
    ∧ upper name = k
    ∧ Forall (λ field, upper field.1.1 ≠ k) fields2
    ∧ int len = Some n
    ∧ v = strip (take (N.to_nat n) value)
    ∧ (String.length v ≤ N.to_nat n)%nat.

(** The failure that [parse_adif] ends with when it carries [reason]: the
    line printed and the exit status. *)
Definition fails_with (reason : string)
    (result : outcome (list (gmap string string))) : Prop :=
  result = SysExit ("Error de QRZ: " ++ reason) 1.

(** The reason as the specification words it: the text between REASON= and
    the next ampersand, and "unknown" without one. *)
Definition specified_reason (raw : string) : string :=
  match search_reason raw with
  | Some reason => reason
  | None => "unknown"
  end.

(** What a record adds to each set, if anything. *)
Definition country_value (qso : gmap string string) : option string :=
  let country := py_or (get qso "COUNTRY" "") (get qso "DXCC" "") in
  if is_empty country then None else Some country.

Definition band_value (qso : gmap string string) : option string :=
  let band := get qso "BAND" "" in
  if is_empty band then None else Some (lower band).

Definition mode_value (qso : gmap string string) : option string :=
  let mode := get qso "MODE" "" in
  if is_empty mode then None else Some (upper mode).

(** The country of a record as the specification words it: COUNTRY, and
    DXCC when COUNTRY is empty or absent. *)
Definition country_of (qso : gmap string string) : string :=
  match qso !! "COUNTRY" with
  | Some "" | None => default "" (qso !! "DXCC")
  | Some country => country
  end.

(** Ascending by code point, no value twice. *)
Definition ascending (l : list string) : Prop :=
  StronglySorted (λ a b, String.compare a b = Lt) l.

(** A text of lines, each ended by a newline. *)
Fixpoint unlines (lines : list string) : string :=
  match lines with
  | [] => ""
  | line :: lines' => line ++ newline ++ unlines lines'
  end.

(** A band or a mode of a row as the specification words it: the field as
    it is, and a question mark when the record has none. *)
Definition or_placeholder (field : option string) : string :=
  match field with
  | Some value => value
  | None => "?"
  end.

(** A record with a call sign that is not empty. *)
Definition has_call (qso : gmap string string) : Prop :=
  ∃ call, qso !! "CALL" = Some call ∧ call ≠ "".

(** Eight decimal digits. *)
Definition eight_digits (date : string) : Prop :=
  String.length date = 8%nat ∧ all_chars Char.is_digit date = true.

(** A record with a call sign and without band. *)
Definition qso_without_band : gmap string string :=
  {[ "CALL" := "lu9ang"; "MODE" := "FT8" ]}.

(** [s * n]: [n] copies of a text. *)
Fixpoint times (n : nat) (s : string) : string :=
  match n with
  | O => ""
  | S n' => s ++ times n' s
  end.

(** A tag whose length has one digit more than [int] converts. *)
Definition long_length_tag : string := "<A:" ++ times 4301 "1" ++ ">x".

(** Some tag of some chunk of [adif_data] declares its length in more
    digits than [int] converts. *)
Definition long_length (adif_data : string) : Prop :=
  ∃ chunk name len value,
    chunk ∈ split_eor adif_data ∧ (name, len, value) ∈ findall chunk
    ∧ (max_str_digits < String.length len)%nat.

(** A text of ASCII characters. *)
Definition ascii_text (s : string) : Prop :=
  all_chars (λ c, (Char.code c <? 128)%N) s = true.

(** A field name without lower-case letter, by [str.islower] on Latin-1. *)
Definition upper_case_only (k : string) : Prop :=
  all_chars (λ c, negb (Latin1.is_lower c)) k = true.

(** The feminine ordinal indicator (170): a word character that is lower
    case and has no capital. *)
Definition ordinal : string := String (ascii_of_nat 170) "".

Definition ordinal_tag : string := "<" ++ ordinal ++ ":1>x".

(** A statistic of the page: the number [d] and, after any blanks, the
    label. *)
Definition slot (label d blanks : string) : string :=
  stat_number_open ++ d ++ "</div>" ++ blanks ++ stat_label_open ++ label.

Definition blank (s : string) : Prop := all_chars Char.is_space s = true.

(** [label] has a statistic somewhere in [html]. *)
Definition has_slot (label html : string) : Prop :=
  ∃ pre d blanks post,
    html = pre ++ slot label d blanks ++ post ∧ digits1 d ∧ blank blanks.

(** A text without its digits. *)
Fixpoint erase_digits (s : string) : string :=
  match s with
  | "" => ""
  | String c s' =>
      if Char.is_digit c then erase_digits s' else String c (erase_digits s')
  end.

(** A text that starts as a statistic does. *)
Definition begins_open (t : string) : Prop := ∃ u, t = stat_number_open ++ u.

(** Two labels of which none starts with the other. *)
Definition apart (label1 label2 : string) : Prop :=
  ∀ u v, label1 ++ u ≠ label2 ++ v.

(** What the line printed for a label says: found, with the value, or not
    found. *)
Definition reported (label value : string) (found : Prop) (line : string) : Prop :=
  (found ∧ line = "  ✓ " ++ label ++ ": " ++ value)
  ∨ (¬ found ∧ line = "  ✗ No se encontró '" ++ label ++ "' en el HTML").

(** The six ways in which [main] ends, on the response [r] of the service
    and from the world [w]: no answer, an answer that carries a failure, a
    length that [int] refuses, an answer without record, no page to update,
    and the run to the end. *)
Inductive main_end (r : response) (w : world) : world → outcome unit → Prop :=
| end_no_answer exception w' :
    r = Failure exception →
    index_html w' = index_html w → logbook_csv w' = logbook_csv w →
    main_end r w w' (SysExit ("Error conectando a QRZ: " ++ exception) 1)
| end_failure raw w' :
    r = Answer raw → occurs_in "RESULT=FAIL" raw →
    index_html w' = index_html w → logbook_csv w' = logbook_csv w →
    main_end r w w' (SysExit ("Error de QRZ: " ++ failure_reason raw) 1)
| end_long_length raw w' :
    r = Answer raw → ¬ occurs_in "RESULT=FAIL" raw →
    long_length (adif_payload raw) →
    index_html w' = index_html w → logbook_csv w' = logbook_csv w →
    main_end r w w' (Raised "ValueError")
| end_no_record raw w' :
    r = Answer raw → Rt.parse_adif cpython raw = Return [] →
    index_html w' = index_html w → logbook_csv w' = logbook_csv w →
    main_end r w w'
      (SysExit "⚠️  No se encontraron QSOs. Verifica tu API key." 1)
| end_no_page raw qsos w' :
    r = Answer raw → Rt.parse_adif cpython raw = Return qsos → qsos ≠ [] →
    index_html w = None →
    index_html w' = index_html w → logbook_csv w' = logbook_csv w →
    main_end r w w' (Raised "FileNotFoundError")
| end_done raw qsos html w' :
    r = Answer raw → Rt.parse_adif cpython raw = Return qsos → qsos ≠ [] →
    index_html w = Some html →
    index_html w' = Some (update_html (compute_stats qsos) html).1 →
    logbook_csv w' = Some (build_logbook_csv qsos) →
    main_end r w w' (Return tt).

(** A page with one statistic, of the modes, and a log of two contacts. *)
Definition sample_page : string :=
  "<p>" ++ slot "Modos" "7" newline ++ "</div></p>".

Definition sample_log : string :=
  "<call:4>LU1A<mode:3>ft8<eor><call:4>LU2B<mode:2>CW<eor>".

(** * Properties *)

(** ** Text *)

Section text.
Implicit Types (s t u : string) (c : ascii) (p : ascii → bool).

Lemma str_app_nil_l s : "" ++ s = s.
Proof. reflexivity. Qed.

Lemma str_app_cons c s t : String c s ++ t = String c (s ++ t).
Proof. reflexivity. Qed.

Lemma str_app_nil_r s : s ++ "" = s.
Proof. induction s as [|c s IH]; [done|]. by rewrite str_app_cons, IH. Qed.

Lemma str_app_assoc s t u : (s ++ t) ++ u = s ++ t ++ u.
Proof. induction s as [|c s IH]; [done|]. by rewrite !str_app_cons, IH. Qed.

Lemma str_length_app s t :
  String.length (s ++ t) = String.length s + String.length t.
Proof. induction s as [|c s IH]; [done|]. rewrite str_app_cons. simpl. lia. Qed.

Lemma str_app_eq_nil s t : s ++ t = "" → s = "" ∧ t = "".
Proof. destruct s; [done|]. by rewrite str_app_cons. Qed.

Lemma is_empty_true s : is_empty s = true ↔ s = "".
Proof. by destruct s. Qed.

Lemma is_empty_false s : is_empty s = false ↔ s ≠ "".
Proof. by destruct s. Qed.

Lemma all_chars_nil p : all_chars p "" = true.
Proof. reflexivity. Qed.

Lemma all_chars_cons p c s : all_chars p (String c s) = p c && all_chars p s.
Proof. reflexivity. Qed.

Lemma all_chars_app p s t :
  all_chars p (s ++ t) = all_chars p s && all_chars p t.
Proof.
  induction s as [|c s IH]; [done|].
  by rewrite str_app_cons, !all_chars_cons, IH, andb_assoc.
Qed.

Lemma all_chars_impl p q s :
  (∀ c, p c = true → q c = true) → all_chars p s = true → all_chars q s = true.
Proof.
  intros Hpq. induction s as [|c s IH]; [done|].
  rewrite !all_chars_cons, !andb_true_iff. naive_solver.
Qed.

(** *** Case *)

Lemma upper_eq_nil s : upper s = "" ↔ s = "".
Proof. by destruct s. Qed.

Lemma char_upper_idemp c : Char.upper (Char.upper c) = Char.upper c.
Proof. by destruct c as [[] [] [] [] [] [] [] []]. Qed.

Lemma char_upper_not_lower c : Char.is_lower (Char.upper c) = false.
Proof. by destruct c as [[] [] [] [] [] [] [] []]. Qed.

Lemma char_upper_word c : Char.is_word (Char.upper c) = Char.is_word c.
Proof. by destruct c as [[] [] [] [] [] [] [] []]. Qed.

Lemma char_digit_word c : Char.is_digit c = true → Char.is_word c = true.
Proof. by destruct c as [[] [] [] [] [] [] [] []]. Qed.

Lemma upper_idemp s : upper (upper s) = upper s.
Proof.
  induction s as [|c s IH]; [done|]. simpl. by rewrite char_upper_idemp, IH.
Qed.

Lemma upper_no_lower s : all_chars (λ c, negb (Char.is_lower c)) (upper s) = true.
Proof.
  induction s as [|c s IH]; [done|]. simpl.
  by rewrite all_chars_cons, char_upper_not_lower, IH.
Qed.

Lemma upper_word s : all_chars Char.is_word (upper s) = all_chars Char.is_word s.
Proof.
  induction s as [|c s IH]; [done|]. simpl.
  by rewrite !all_chars_cons, char_upper_word, IH.
Qed.

Lemma length_upper s : String.length (upper s) = String.length s.
Proof. induction s as [|c s IH]; [done|]. simpl. by rewrite IH. Qed.

(** *** Slices *)

Lemma str_length_take n s : String.length (take n s) = Nat.min n (String.length s).
Proof.
  revert s. induction n as [|n IH]; intros [|c s]; simpl; [done..|].
  by rewrite IH.
Qed.

Lemma all_chars_take p n s :
  all_chars p s = true → all_chars p (take n s) = true.
Proof.
  revert s. induction n as [|n IH]; intros [|c s]; simpl; [done..|].
  rewrite !all_chars_cons, !andb_true_iff. naive_solver.
Qed.

Lemma str_take_drop n s : take n s ++ drop n s = s.
Proof.
  revert s. induction n as [|n IH]; intros [|c s]; simpl; [done..|].
  by rewrite str_app_cons, IH.
Qed.

Lemma str_take_app_length s t : take (String.length s) (s ++ t) = s.
Proof. induction s as [|c s IH]; [by destruct t|]. simpl. by rewrite IH. Qed.

Lemma str_drop_app_length s t : drop (String.length s) (s ++ t) = t.
Proof. induction s as [|c s IH]; [by destruct t|]. done. Qed.

Lemma str_take_ge n s : (String.length s ≤ n)%nat → take n s = s.
Proof.
  revert s. induction n as [|n IH]; intros [|c s]; simpl; try done; [lia|].
  intros ?. rewrite IH; [done|lia].
Qed.

(** *** Stripping *)

Lemma lstrip_spec s :
  ∃ w, s = w ++ lstrip s ∧ all_chars Char.is_space w = true
       ∧ ¬ starts_with Char.is_space (lstrip s).
Proof.
  induction s as [|c s (w & Hs & Hw & Hl)].
  - exists "". split_and!; [done..|]. by intros (? & ? & ? & ?).
  - simpl. destruct (Char.is_space c) eqn:Hc.
    + exists (String c w). rewrite str_app_cons, <-Hs, all_chars_cons, Hc, Hw.
      by split_and!.
    + exists "". split_and!; [done..|]. intros (? & ? & ? & ?). congruence.
Qed.

Lemma rstrip_spec s :
  ∃ w, s = rstrip s ++ w ∧ all_chars Char.is_space w = true.
Proof.
  induction s as [|c s (w & Hs & Hw)]; [by exists ""|].
  simpl. destruct (rstrip s) as [|d r] eqn:Hr; simpl.
  - destruct (Char.is_space c) eqn:Hc.
    + exists (String c w). rewrite str_app_nil_l in *. subst s.
      by rewrite all_chars_cons, Hc, Hw.
    + exists w. by rewrite str_app_cons, <-Hs.
  - exists w. by rewrite str_app_cons, <-Hs.
Qed.

(** The last character of a right-stripped text is no blank. *)
Lemma rstrip_last s t c : rstrip s = t ++ String c "" → Char.is_space c = false.
Proof.
  revert t. induction s as [|a s IH]; intros t; simpl.
  - by destruct t.
  - destruct (rstrip s) as [|d r] eqn:Hr; simpl.
    + destruct (Char.is_space a) eqn:Ha; [by destruct t|].
      destruct t as [|b [|??]]; rewrite ?str_app_cons, ?str_app_nil_l; congruence.
    + destruct t as [|b t]; rewrite ?str_app_cons, ?str_app_nil_l; [congruence|].
      intros [= -> Ht]. by apply (IH t).
Qed.

Lemma rstrip_first s c t :
  ¬ starts_with Char.is_space s → rstrip s = String c t → Char.is_space c = false.
Proof.
  destruct s as [|a s]; [done|]. simpl. intros Hs.
  destruct (is_empty (rstrip s) && Char.is_space a) eqn:E; [done|].
  intros [= -> _]. destruct (Char.is_space c) eqn:Hc; [|done].
  destruct Hs. by eexists _, _.
Qed.

Lemma all_chars_lstrip p s : all_chars p s = true → all_chars p (lstrip s) = true.
Proof.
  destruct (lstrip_spec s) as (w & Hs & _). rewrite Hs at 1.
  rewrite all_chars_app, andb_true_iff. naive_solver.
Qed.

Lemma all_chars_rstrip p s : all_chars p s = true → all_chars p (rstrip s) = true.
Proof.
  destruct (rstrip_spec s) as (w & Hs & _). rewrite Hs at 1.
  rewrite all_chars_app, andb_true_iff. naive_solver.
Qed.

Lemma all_chars_strip p s : all_chars p s = true → all_chars p (strip s) = true.
Proof. intros. by apply all_chars_rstrip, all_chars_lstrip. Qed.

Lemma length_lstrip s : (String.length (lstrip s) ≤ String.length s)%nat.
Proof.
  destruct (lstrip_spec s) as (w & Hs & _). rewrite Hs at 2.
  rewrite str_length_app. lia.
Qed.

Lemma length_rstrip s : (String.length (rstrip s) ≤ String.length s)%nat.
Proof.
  destruct (rstrip_spec s) as (w & Hs & _). rewrite Hs at 2.
  rewrite str_length_app. lia.
Qed.

Lemma length_strip s : (String.length (strip s) ≤ String.length s)%nat.
Proof.
  unfold strip. etrans; [apply length_rstrip|apply length_lstrip].
Qed.

(** A stripped text neither starts nor ends with a blank. *)
Lemma strip_edges s :
  ¬ starts_with Char.is_space (strip s)
  ∧ ∀ t c, strip s = t ++ String c "" → Char.is_space c = false.
Proof.
  split.
  - intros (c & t & Hs & Hc).
    destruct (lstrip_spec s) as (w & _ & _ & Hl).
    apply rstrip_first in Hs; [congruence|done].
  - intros t c. apply rstrip_last.
Qed.

(** A text of blanks only strips to nothing, and conversely. *)
Lemma lstrip_blank s : all_chars Char.is_space s = true → lstrip s = "".
Proof.
  induction s as [|c s IH]; [done|].
  rewrite all_chars_cons, andb_true_iff. intros [Hc Hs]. simpl. by rewrite Hc, IH.
Qed.

Lemma rstrip_blank s : all_chars Char.is_space s = true → rstrip s = "".
Proof.
  induction s as [|c s IH]; [done|].
  rewrite all_chars_cons, andb_true_iff. intros [Hc Hs]. simpl. by rewrite IH, Hc.
Qed.

Lemma strip_eq_nil s : strip s = "" ↔ all_chars Char.is_space s = true.
Proof.
  split.
  - intros Hs. destruct (lstrip_spec s) as (w & Hw & Hb & _).
    destruct (rstrip_spec (lstrip s)) as (w' & Hw' & Hb').
    fold (strip s) in Hw'. rewrite Hs, str_app_nil_l in Hw'.
    rewrite Hw, all_chars_app, Hb, Hw'. done.
  - intros Hs. unfold strip. by rewrite lstrip_blank.
Qed.

End text.

(** ** Scanning *)

Section scanning.
Implicit Types (s t u : string) (c : ascii) (p : ascii → bool).

Lemma strip_prefix_spec t s r : strip_prefix t s = Some r ↔ s = t ++ r.
Proof.
  revert s. induction t as [|a t IH]; intros s; simpl.
  - rewrite str_app_nil_l. naive_solver.
  - destruct s as [|b s]; [by rewrite str_app_cons|].
    rewrite str_app_cons. destruct (Ascii.eqb_spec a b) as [->|Hab].
    + rewrite IH. naive_solver.
    + naive_solver.
Qed.

Lemma strip_prefix_app t r : strip_prefix t (t ++ r) = Some r.
Proof. by apply strip_prefix_spec. Qed.

Lemma contains_spec t s : contains t s = true ↔ occurs_in t s.
Proof.
  induction s as [|c s IH]; simpl.
  - destruct (strip_prefix t "") as [r|] eqn:E.
    + apply strip_prefix_spec in E. split; [|done]. intros _.
      exists "", r. by rewrite str_app_nil_l.
    + split; [done|]. intros (a & b & Hab). symmetry in Hab.
      apply str_app_eq_nil in Hab as [-> Hab].
      apply str_app_eq_nil in Hab as [-> ->]. done.
  - destruct (strip_prefix t (String c s)) as [r|] eqn:E.
    + apply strip_prefix_spec in E. split; [|done]. intros _.
      exists "", r. by rewrite str_app_nil_l.
    + rewrite IH. split.
      * intros (a & b & ->). by exists (String c a), b.
      * intros ([|d a] & b & Hab).
        -- rewrite str_app_nil_l in Hab.
           apply strip_prefix_spec in Hab. congruence.
        -- rewrite str_app_cons in Hab. injection Hab as -> ->. by exists a, b.
Qed.

Lemma span_spec p s a b :
  span p s = (a, b) →
  s = a ++ b ∧ all_chars p a = true ∧ ¬ starts_with p b.
Proof.
  revert a b. induction s as [|c s IH]; intros a b; simpl.
  - intros [= <- <-]. split_and!; [done..|]. by intros (? & ? & ? & ?).
  - destruct (p c) eqn:Hc.
    + destruct (span p s) as [a' b'] eqn:E. intros [= <- <-].
      destruct (IH _ _ eq_refl) as (-> & Ha & Hb).
      by rewrite all_chars_cons, Hc, Ha.
    + intros [= <- <-]. split_and!; [done..|].
      intros (? & ? & [= <- <-] & ?). congruence.
Qed.

Lemma span_app p a b :
  all_chars p a = true → ¬ starts_with p b → span p (a ++ b) = (a, b).
Proof.
  intros Ha Hb. induction a as [|c a IH].
  - rewrite str_app_nil_l. destruct b as [|c b]; [done|]. simpl.
    destruct (p c) eqn:Hc; [|done]. destruct Hb. by eexists _, _.
  - rewrite all_chars_cons, andb_true_iff in Ha. destruct Ha as [Hc Ha].
    rewrite str_app_cons. simpl. by rewrite Hc, IH.
Qed.


Lemma span1_spec p s a b :
  span1 p s = Some (a, b) ↔
  s = a ++ b ∧ a ≠ "" ∧ all_chars p a = true ∧ ¬ starts_with p b.
Proof.
  unfold span1. split.
  - destruct (span p s) as [a' b'] eqn:E. apply span_spec in E as (-> & ? & ?).
    destruct a'; [done|]. by intros [= <- <-].
  - intros (-> & Ha & Hp & Hb). rewrite span_app by done. by destruct a.
Qed.


(** *** [search] *)

Lemma search_Some {A} (m : string → option A) s x :
  search m s = Some x ↔
  ∃ pre post, s = pre ++ post ∧ m post = Some x
    ∧ ∀ a b, s = a ++ b → (String.length a < String.length pre)%nat → m b = None.
Proof.
  induction s as [|c s IH]; simpl.
  - destruct (m "") as [y|] eqn:E.
    + split.
      * intros [= ->]. exists "", "". split_and!; [done..|]. simpl. lia.
      * intros (pre & post & Hs & Hm & _). symmetry in Hs.
        apply str_app_eq_nil in Hs as [-> ->]. congruence.
    + split; [done|]. intros (pre & post & Hs & Hm & _). symmetry in Hs.
      apply str_app_eq_nil in Hs as [-> ->]. congruence.
  - destruct (m (String c s)) as [y|] eqn:E.
    + split.
      * intros [= ->]. exists "", (String c s). split_and!; [done..|]. simpl. lia.
      * intros ([|d pre] & post & Hs & Hm & Hfirst).
        -- rewrite str_app_nil_l in Hs. subst post. congruence.
        -- specialize (Hfirst "" (String c s) eq_refl). simpl in Hfirst.
           rewrite Hfirst in E by lia. done.
    + rewrite IH. split.
      * intros (pre & post & -> & Hm & Hfirst).
        exists (String c pre), post. split_and!; [done..|].
        intros [|d a] b Hab Hlen.
        -- rewrite str_app_nil_l in Hab. by subst b.
        -- rewrite !str_app_cons in Hab. injection Hab as -> Hab.
           apply (Hfirst a b Hab). simpl in Hlen. lia.
      * intros ([|d pre] & post & Hs & Hm & Hfirst).
        -- rewrite str_app_nil_l in Hs. subst post. congruence.
        -- rewrite str_app_cons in Hs. injection Hs as -> ->.
           exists pre, post. split_and!; [done..|].
           intros a b Hab Hlen. apply (Hfirst (String d a) b).
           ++ by rewrite str_app_cons, Hab.
           ++ simpl. lia.
Qed.

Lemma search_None {A} (m : string → option A) s :
  search m s = None ↔ ∀ a b, s = a ++ b → m b = None.
Proof.
  induction s as [|c s IH]; simpl.
  - destruct (m "") as [y|] eqn:E.
    + split; [done|]. intros H. by rewrite (H "" "") in E.
    + split; [|done]. intros _ a b Hab. symmetry in Hab.
      by apply str_app_eq_nil in Hab as [-> ->].
  - destruct (m (String c s)) as [y|] eqn:E.
    + split; [done|]. intros H. by rewrite (H "" (String c s)) in E.
    + rewrite IH. split.
      * intros H [|d a] b Hab.
        -- rewrite str_app_nil_l in Hab. by subst b.
        -- rewrite str_app_cons in Hab. injection Hab as -> ->. by apply (H a).
      * intros H a b ->. by apply (H (String c a) b).
Qed.

End scanning.

(** ** The field pattern *)

Ltac simpl_opt := cbn [fmap option_fmap option_map mbind option_bind].
Ltac norm_app :=
  repeat first [rewrite str_app_assoc | rewrite str_app_cons | rewrite str_app_nil_l].
Ltac norm_app_in H :=
  repeat first [rewrite str_app_assoc in H | rewrite str_app_cons in H
               | rewrite str_app_nil_l in H].

Section field_pattern.
Implicit Types (s t u name len ty value rest : string) (c : ascii).

Lemma at_boundary_iff s : at_boundary s ↔ s = "" ∨ ∃ s', s = "<" ++ s'.
Proof.
  unfold at_boundary, starts_with, is_lt. split.
  - intros H. destruct s as [|c s]; [by left|]. right. exists s.
    destruct (Ascii.eqb_spec c "<") as [->|Hc]; [done|].
    destruct H. exists c, s. split; [done|].
    by apply negb_true_iff, Ascii.eqb_neq.
  - intros [->|[s' ->]] (c & t & Heq & Hc); [done|].
    norm_app_in Heq. by injection Heq as <- <-.
Qed.

Lemma not_starts_with_cons (p : ascii → bool) c s :
  p c = false → ¬ starts_with p (String c s).
Proof. intros Hc (? & ? & [= <- <-] & ?). congruence. Qed.

Lemma match_type_spec s r :
  match_type s = Some r ↔
  ∃ t, s = ":" ++ t ++ r ∧ word1 t ∧ ¬ starts_with Char.is_word r.
Proof.
  unfold match_type. rewrite bind_Some. split.
  - intros (s1 & H1 & H2). apply strip_prefix_spec in H1 as ->.
    apply bind_Some in H2 as ([t r'] & H2 & [= ->]).
    apply span1_spec in H2 as (-> & ? & ? & ?). by exists t.
  - intros (t & -> & [? ?] & ?). exists (t ++ r). split.
    + by apply strip_prefix_spec.
    + apply bind_Some. exists (t, r). split; [|done]. by apply span1_spec.
Qed.

Lemma match_close_spec s r :
  match_close s = Some r ↔ ∃ ty, type_suffix ty ∧ s = ty ++ ">" ++ r.
Proof.
  unfold match_close. split.
  - destruct (match_type s ≫= strip_prefix ">") as [r'|] eqn:E.
    + intros [= ->]. apply bind_Some in E as (s2 & H1 & H2).
      apply match_type_spec in H1 as (t & -> & Ht & _).
      apply strip_prefix_spec in H2 as ->.
      exists (":" ++ t). split; [right; by exists t|]. by norm_app.
    + intros H. apply strip_prefix_spec in H as ->. exists "". by split; [left|].
  - intros (ty & [->|(t & -> & Ht1 & Ht2)] & ->).
    + by norm_app.
    + assert (match_type ((":" ++ t) ++ ">" ++ r) = Some (">" ++ r)) as ->.
      { apply match_type_spec. exists t. split_and!; [by norm_app|done|].
        norm_app. by apply not_starts_with_cons. }
      change (Some (">" ++ r) ≫= strip_prefix ">") with (strip_prefix ">" (">" ++ r)).
      by rewrite strip_prefix_app.
Qed.

Lemma type_suffix_close ty r : type_suffix ty → ¬ starts_with Char.is_digit (ty ++ ">" ++ r).
Proof.
  intros [->|(t & -> & _)]; norm_app; by apply not_starts_with_cons.
Qed.

Lemma match_field_spec s name len value rest :
  match_field s = Some (name, len, value, rest) ↔
  ∃ ty, s = tag name len ty ++ value ++ rest
        ∧ word1 name ∧ digits1 len ∧ type_suffix ty
        ∧ no_lt value ∧ at_boundary rest.
Proof.
  unfold match_field, tag. split.
  - intros H.
    apply bind_Some in H as (s1 & H1 & H). apply strip_prefix_spec in H1 as ->.
    apply bind_Some in H as ([name' s2] & H2 & H).
    apply span1_spec in H2 as (-> & ? & ? & _).
    apply bind_Some in H as (s3 & H3 & H). apply strip_prefix_spec in H3 as ->.
    apply bind_Some in H as ([len' s4] & H4 & H).
    apply span1_spec in H4 as (-> & ? & ? & _).
    apply bind_Some in H as (s5 & H5 & H).
    apply match_close_spec in H5 as (ty & Hty & ->).
    destruct (span _ s5) as [value' rest'] eqn:H6.
    apply span_spec in H6 as (-> & ? & ?). injection H as -> -> -> ->.
    exists ty. split_and!; [by norm_app|done..].
  - intros (ty & -> & [? ?] & [? ?] & Hty & ? & ?).
    apply bind_Some. eexists. split.
    { apply strip_prefix_spec. norm_app. reflexivity. }
    apply bind_Some. exists (name, ":" ++ len ++ ty ++ ">" ++ value ++ rest). split.
    { apply span1_spec. split_and!; [by norm_app|done..|].
      norm_app. by apply not_starts_with_cons. }
    apply bind_Some. eexists. split; [by apply strip_prefix_app|].
    apply bind_Some. exists (len, ty ++ ">" ++ value ++ rest). split.
    { apply span1_spec. split_and!; [done..|]. by apply type_suffix_close. }
    apply bind_Some. exists (value ++ rest). split.
    { apply match_close_spec. by exists ty. }
    by rewrite span_app.
Qed.






End field_pattern.

(** ** [findall] *)

Section findall.
Implicit Types (s t u name len ty value rest pre post : string) (c : ascii).

Lemma findall_from_drop k s : findall_from k s = findall (drop k s).
Proof.
  revert k. induction s as [|c s IH]; intros [|k]; try done.
  simpl. by rewrite IH.
Qed.

Lemma findall_nil : findall "" = [].
Proof. reflexivity. Qed.

(** What a match leaves is a proper end of the text. *)
Lemma match_field_rest s name len value rest :
  match_field s = Some (name, len, value, rest) →
  ∃ m, s = String "<" m ++ rest.
Proof.
  intros (ty & -> & _)%match_field_spec. unfold tag. norm_app.
  exists (name ++ ":" ++ len ++ ty ++ ">" ++ value).
  by norm_app.
Qed.

Lemma match_field_length s name len value rest :
  match_field s = Some (name, len, value, rest) →
  (String.length rest < String.length s)%nat.
Proof.
  intros (m & ->)%match_field_rest. rewrite str_length_app. simpl. lia.
Qed.

(** The equation of [findall]: the search goes on where the match ended,
    or one character further when there is none. *)
Lemma findall_cons c s :
  findall (String c s) =
  match match_field (String c s) with
  | Some (name, len, value, rest) => (name, len, value) :: findall rest
  | None => findall s
  end.
Proof.
  unfold findall at 1. cbn [findall_from].
  destruct (match_field (String c s)) as [[[[name len] value] rest]|] eqn:E; [|done].
  f_equal. rewrite findall_from_drop. f_equal.
  apply match_field_rest in E as (m & E). rewrite str_app_cons in E.
  injection E as _ ->. rewrite str_length_app.
  replace (String.length m + String.length rest - String.length rest)%nat
    with (String.length m) by lia.
  apply str_drop_app_length.
Qed.

Lemma match_field_not_lt c s : c ≠ "<"%char → match_field (String c s) = None.
Proof.
  intros Hc. unfold match_field. cbn [strip_prefix].
  destruct (Ascii.eqb_spec "<" c); [congruence|done].
Qed.

(** Text without an opening bracket holds no field. *)
Lemma findall_no_lt s t : no_lt s → findall (s ++ t) = findall t.
Proof.
  unfold no_lt. induction s as [|c s IH]; [done|].
  rewrite all_chars_cons, andb_true_iff, negb_true_iff. intros [Hc Hs].
  rewrite str_app_cons, findall_cons, match_field_not_lt; [by apply IH|].
  by apply Ascii.eqb_neq.
Qed.

Lemma findall_no_lt_nil s : no_lt s → findall s = [].
Proof. intros Hs. rewrite <-(str_app_nil_r s). by rewrite findall_no_lt. Qed.



(** Induction along the matches of [findall]. *)
Lemma findall_ind (P : string → list (string * string * string) → Prop) :
  P "" [] →
  (∀ c s, match_field (String c s) = None →
          P s (findall s) → P (String c s) (findall s)) →
  (∀ name len ty value rest,
      word1 name → digits1 len → type_suffix ty → no_lt value →
      at_boundary rest → P rest (findall rest) →
      P (tag name len ty ++ value ++ rest) ((name, len, value) :: findall rest)) →
  ∀ s, P s (findall s).
Proof.
  intros Hnil Hskip Htag s.
  remember (String.length s) as n eqn:Hn. revert s Hn.
  induction n as [n IH] using lt_wf_ind. intros [|c s] Hn; [done|].
  rewrite findall_cons.
  destruct (match_field (String c s)) as [[[[name len] value] rest]|] eqn:E.
  - pose proof (match_field_length _ _ _ _ _ E) as Hlen.
    apply match_field_spec in E as (ty & -> & ? & ? & ? & ? & ?).
    apply Htag; try done. eapply IH; [|done]. lia.
  - apply Hskip; [done|]. eapply IH; [|done]. subst n. simpl. lia.
Qed.

End findall.

(** ** Records *)

Section records.
Implicit Types (s chunk name len value : string) (c : ascii).
Implicit Types (field : string * string * string).
Implicit Types (fields : list (string * string * string)).
Implicit Types (qso : gmap string string).

Lemma int_digits_Some acc s :
  all_chars Char.is_digit s = true → is_Some (int_digits acc s).
Proof.
  revert acc. induction s as [|c s IH]; intros acc; [by eexists|].
  rewrite all_chars_cons, andb_true_iff. intros [Hc Hs]. simpl.
  rewrite Hc. by apply IH.
Qed.

(** [int] does not raise on the length of a tag. *)
Lemma int_digits1 len : digits1 len → is_Some (int len).
Proof.
  intros [Hne Hd]. unfold int. destruct len; [done|]. by apply int_digits_Some.
Qed.

(** Every field that [findall] returns has the groups of the pattern. *)
Lemma findall_groups s :
  Forall (λ field, word1 field.1.1 ∧ digits1 field.1.2 ∧ no_lt field.2) (findall s).
Proof.
  apply (findall_ind (λ _ fields, Forall _ fields)); [done..|].
  intros. by apply Forall_cons.
Qed.

Lemma store_field_digits qso field :
  digits1 field.1.2 →
  store_field qso field = Some (<[field_key field := field_value field]> qso).
Proof.
  destruct field as [[name len] value]. cbn [fst snd].
  intros [n Hn]%int_digits1.
  unfold store_field, field_key, field_value, declared_length.
  cbn [fst snd]. by rewrite Hn.
Qed.

Lemma fields_loop_digits fields qso :
  Forall (λ field, digits1 field.1.2) fields →
  fields_loop fields qso
  = Some (foldl (λ qso field, <[field_key field := field_value field]> qso)
            qso fields).
Proof.
  intros H. revert qso. induction H as [|field fields Hf _ IH]; intros qso; [done|].
  simpl. rewrite store_field_digits by done. apply IH.
Qed.

(** The loop over the fields of a chunk ends without [ValueError], with
    the record of the fields. *)
Lemma fields_loop_findall chunk :
  fields_loop (findall chunk) ∅ = Some (record_of (findall chunk)).
Proof.
  apply fields_loop_digits. eapply Forall_impl; [apply findall_groups|].
  naive_solver.
Qed.

Lemma record_of_snoc fields field :
  record_of (fields ++ [field])%list
  = <[field_key field := field_value field]> (record_of fields).
Proof. unfold record_of. by rewrite foldl_snoc. Qed.

Lemma record_of_empty fields : record_of fields = ∅ ↔ fields = [].
Proof.
  split; [|by intros ->].
  destruct fields as [|f fields _] using rev_ind; [done|].
  rewrite record_of_snoc. intros H. by apply insert_non_empty in H.
Qed.

(** A key holds the value of the last field stored under it. *)
Lemma record_of_lookup fields k v :
  record_of fields !! k = Some v ↔
  ∃ fields1 field fields2,
    fields = (fields1 ++ field :: fields2)%list
    ∧ field_key field = k ∧ field_value field = v
    ∧ Forall (λ field', field_key field' ≠ k) fields2.
Proof.
  induction fields as [|f fields IH] using rev_ind.
  - split; [done|]. intros (l1 & ? & ? & Hl & _). by destruct l1.
  - rewrite record_of_snoc. destruct (decide (field_key f = k)) as [<-|Hk].
    + rewrite lookup_insert_eq. split.
      * intros [= <-]. by exists fields, f, [].
      * intros (l1 & g & l2 & Hl & Hg & <- & Hl2).
        destruct l2 as [|h l2 _] using rev_ind.
        -- apply app_inj_tail in Hl as [_ ->]. done.
        -- rewrite app_comm_cons, app_assoc in Hl.
           apply app_inj_tail in Hl as [_ ->].
           apply Forall_app in Hl2 as [_ Hh]. by inversion Hh.
    + rewrite lookup_insert_ne by done. rewrite IH. split.
      * intros (l1 & g & l2 & -> & Hg & Hv & Hl2).
        exists l1, g, (l2 ++ [f])%list. split_and!; [|done..|].
        -- by rewrite <-app_assoc.
        -- apply Forall_app. split; [done|]. by apply Forall_singleton.
      * intros (l1 & g & l2 & Hl & Hg & Hv & Hl2).
        destruct l2 as [|h l2 _] using rev_ind.
        -- apply app_inj_tail in Hl as [_ ->]. done.
        -- rewrite app_comm_cons, app_assoc in Hl.
           apply app_inj_tail in Hl as [-> ->].
           apply Forall_app in Hl2 as [Hl2 _]. by exists l1, g, l2.
Qed.

(** A chunk of blanks holds no field. *)
Lemma findall_blank chunk : strip chunk = "" → findall chunk = [].
Proof.
  intros H%strip_eq_nil. apply findall_no_lt_nil. unfold no_lt.
  eapply all_chars_impl; [|done].
  intros [[] [] [] [] [] [] [] []]; done.
Qed.

Lemma records_loop_spec chunks qsos :
  records_loop chunks qsos = Some (qsos ++ omap chunk_record chunks)%list.
Proof.
  revert qsos. induction chunks as [|chunk chunks IH]; intros qsos.
  - simpl. by rewrite app_nil_r.
  - cbn [records_loop omap list_omap]. unfold chunk_record at 1.
    destruct (is_empty (strip chunk)) eqn:E.
    + apply is_empty_true in E. rewrite findall_blank by done. apply IH.
    + rewrite fields_loop_findall. simpl_opt. rewrite IH.
      destruct (decide (record_of (findall chunk) = ∅)) as [H|H].
      * apply record_of_empty in H. by rewrite H.
      * destruct (findall chunk); [done|]. by rewrite <-app_assoc.
Qed.

(** The parser proper never raises: it returns the records of the chunks
    that have a field. *)
Lemma parse_records_spec adif_data :
  parse_records adif_data = Some (records_of adif_data).
Proof. apply records_loop_spec. Qed.

End records.

(** ** [split_eor] *)

Section split.
Implicit Types (s t m piece : string) (c : ascii) (pieces : list string).

Lemma split_from_drop k s : split_from k s = split_eor (drop k s).
Proof.
  revert k. induction s as [|c s IH]; intros [|k]; try done.
  simpl. by rewrite IH.
Qed.

Lemma length_lower s : String.length (lower s) = String.length s.
Proof. induction s as [|c s IH]; [done|]. simpl. by rewrite IH. Qed.

Lemma lower_app s t : lower (s ++ t) = lower s ++ lower t.
Proof.
  induction s as [|c s IH]; [done|]. rewrite str_app_cons. simpl.
  by rewrite IH.
Qed.

Lemma lower_eq_nil s : lower s = "" ↔ s = "".
Proof. by destruct s. Qed.

Lemma strip_prefix_nocase_spec t s r :
  strip_prefix_nocase t s = Some r ↔ ∃ m, s = m ++ r ∧ lower m = lower t.
Proof.
  revert s. induction t as [|a t IH]; intros s; simpl.
  - split.
    + intros [= ->]. by exists "".
    + intros (m & -> & Hm). apply lower_eq_nil in Hm as ->. done.
  - destruct s as [|b s].
    { split; [done|]. intros (m & Hs & Hm). symmetry in Hs.
      apply str_app_eq_nil in Hs as [-> _]. done. }
    unfold Char.eqb_nocase. destruct (Ascii.eqb_spec (Char.lower a) (Char.lower b)) as [Hab|Hab].
    + rewrite IH. split.
      * intros (m & -> & Hm). exists (String b m). split; [done|].
        simpl. by rewrite Hab, Hm.
      * intros ([|d m] & Hs & Hm); [done|]. rewrite str_app_cons in Hs.
        injection Hs as -> ->. injection Hm as _ Hm. by exists m.
    + split; [done|]. intros ([|d m] & Hs & Hm); [done|].
      rewrite str_app_cons in Hs. injection Hs as -> ->.
      injection Hm as Hd _. congruence.
Qed.

Lemma strip_prefix_eor s r :
  strip_prefix_nocase "<eor>" s = Some r ↔ ∃ m, s = m ++ r ∧ is_eor m.
Proof. apply strip_prefix_nocase_spec. Qed.

Lemma is_eor_length m : is_eor m → String.length m = 5.
Proof. unfold is_eor. intros H. by rewrite <-length_lower, H. Qed.


(** The equation of [split_eor]: a marker closes the current piece, any
    other character goes to it. *)
Lemma split_eor_cons c s :
  split_eor (String c s) =
  match strip_prefix_nocase "<eor>" (String c s) with
  | Some rest => "" :: split_eor rest
  | None =>
      match split_eor s with
      | piece :: pieces => String c piece :: pieces
      | [] => [String c ""]
      end
  end.
Proof.
  unfold split_eor at 1. cbn [split_from].
  destruct (strip_prefix_nocase "<eor>" (String c s)) as [rest|] eqn:E; [|done].
  f_equal. rewrite split_from_drop. f_equal.
  apply strip_prefix_eor in E as (m & E & Hm).
  pose proof (is_eor_length _ Hm) as Hlen.
  destruct m as [|d m]; [done|]. rewrite str_app_cons in E.
  injection E as _ ->. simpl in Hlen.
  replace 4%nat with (String.length m) by lia. apply str_drop_app_length.
Qed.

Lemma split_eor_nonempty s : split_eor s ≠ [].
Proof.
  remember (String.length s) as n eqn:Hn. revert s Hn.
  induction n as [n IH] using lt_wf_ind. intros [|c s] Hn; [done|].
  rewrite split_eor_cons.
  destruct (strip_prefix_nocase "<eor>" (String c s)); [done|].
  by destruct (split_eor s).
Qed.

(** Induction along the pieces of [split_eor]. *)
Lemma split_eor_ind (P : string → list string → Prop) :
  P "" [""] →
  (∀ m rest, is_eor m → P rest (split_eor rest) →
             P (m ++ rest) ("" :: split_eor rest)) →
  (∀ c s piece pieces,
      strip_prefix_nocase "<eor>" (String c s) = None →
      split_eor s = piece :: pieces → P s (piece :: pieces) →
      P (String c s) (String c piece :: pieces)) →
  ∀ s, P s (split_eor s).
Proof.
  intros Hnil Hmark Hchar s.
  remember (String.length s) as n eqn:Hn. revert s Hn.
  induction n as [n IH] using lt_wf_ind. intros [|c s] Hn; [done|].
  rewrite split_eor_cons.
  destruct (strip_prefix_nocase "<eor>" (String c s)) as [rest|] eqn:E.
  - apply strip_prefix_eor in E as (m & E & Hm). rewrite E.
    apply Hmark; [done|]. eapply IH; [|done].
    pose proof (is_eor_length _ Hm). subst n. rewrite E, str_length_app. lia.
  - destruct (split_eor s) as [|piece pieces] eqn:Es.
    { by apply split_eor_nonempty in Es. }
    apply Hchar; [done..|]. rewrite <-Es. eapply IH; [|done]. subst n. simpl. lia.
Qed.





Lemma blank_no_lt s : all_chars Char.is_space s = true → no_lt s.
Proof.
  apply all_chars_impl. intros [[] [] [] [] [] [] [] []]; done.
Qed.

End split.

(** ** Fields and the tags they come from *)

Section tags.
Implicit Types (s t chunk pre post name len ty value : string) (c : ascii).
Implicit Types (field : string * string * string).



(** Every field found is a tag of the chunk with its value. *)
Lemma findall_sound chunk field :
  field ∈ findall chunk →
  ∃ pre ty post,
    chunk = pre ++ tag field.1.1 field.1.2 ty ++ field.2 ++ post
    ∧ word1 field.1.1 ∧ digits1 field.1.2 ∧ type_suffix ty
    ∧ no_lt field.2 ∧ at_boundary post.
Proof.
  revert field. apply (findall_ind (λ chunk fields, ∀ field,
    field ∈ fields →
    ∃ pre ty post,
      chunk = pre ++ tag field.1.1 field.1.2 ty ++ field.2 ++ post
      ∧ word1 field.1.1 ∧ digits1 field.1.2 ∧ type_suffix ty
      ∧ no_lt field.2 ∧ at_boundary post)).
  - by intros ? ?%elem_of_nil.
  - intros c s _ IH field (pre & ty & post & -> & ?)%IH.
    by exists (String c pre), ty, post.
  - intros name len ty value rest ????? IH field [->|Hin]%elem_of_cons.
    + by exists "", ty, rest.
    + apply IH in Hin as (pre & ty' & post & -> & ?).
      exists (tag name len ty ++ value ++ pre), ty', post. split; [|done].
      by rewrite !str_app_assoc.
Qed.

Lemma declared_length_int len n :
  int len = Some n → declared_length len = N.to_nat n.
Proof. unfold declared_length. by intros ->. Qed.

Lemma field_value_no_lt field : no_lt field.2 → no_lt (field_value field).
Proof. intros H. by apply all_chars_strip, all_chars_take. Qed.

Lemma field_value_length field :
  (String.length (field_value field) ≤ declared_length field.1.2)%nat.
Proof.
  unfold field_value. etrans; [apply length_strip|].
  rewrite str_length_take. lia.
Qed.

Lemma field_key_upper field :
  word1 field.1.1 →
  upper (field_key field) = field_key field ∧ word1 (field_key field)
  ∧ all_chars (λ c, negb (Char.is_lower c)) (field_key field) = true.
Proof.
  intros [Hne Hw]. unfold field_key. split_and!.
  - apply upper_idemp.
  - split; [by rewrite upper_eq_nil|by rewrite upper_word].
  - apply upper_no_lower.
Qed.

End tags.

(** ** The envelope *)

Section envelope.
Implicit Types (s t raw pre post rest reason : string) (c : ascii).

Lemma at_amp_iff s : at_amp s ↔ s = "" ∨ ∃ s', s = "&" ++ s'.
Proof.
  unfold at_amp, starts_with, is_amp. split.
  - intros H. destruct s as [|c s]; [by left|]. right. exists s.
    destruct (Ascii.eqb_spec c "&") as [->|Hc]; [done|].
    destruct H. exists c, s. split; [done|].
    by apply negb_true_iff, Ascii.eqb_neq.
  - intros [->|[s' ->]] (c & t & Heq & Hc); [done|].
    norm_app_in Heq. by injection Heq as <- <-.
Qed.

Lemma match_reason_spec raw reason :
  match_reason raw = Some reason ↔
  ∃ post, raw = "REASON=" ++ reason ++ post
          ∧ reason ≠ "" ∧ no_amp reason ∧ at_amp post.
Proof.
  unfold match_reason. rewrite bind_Some. split.
  - intros (rest & ->%strip_prefix_spec & H).
    apply bind_Some in H as ([r post] & H & [= ->]).
    apply span1_spec in H as (-> & ? & ? & ?). by exists post.
  - intros (post & -> & ? & ? & ?). exists (reason ++ post). split.
    + by apply strip_prefix_spec.
    + apply bind_Some. exists (reason, post). split; [|done]. by apply span1_spec.
Qed.

(** Without a match, every REASON= of the text is followed by an
    ampersand or by nothing. *)
Lemma match_reason_None s : match_reason ("REASON=" ++ s) = None → at_amp s.
Proof.
  intros Hnone Hs. destruct (span (λ c, negb (is_amp c)) s) as [r post] eqn:E.
  apply span_spec in E as (-> & Hr & Hpost).
  destruct r as [|c r].
  - by rewrite str_app_nil_l in Hs.
  - assert (match_reason ("REASON=" ++ String c r ++ post) = Some (String c r)) as E;
      [|congruence].
    apply match_reason_spec. by exists post.
Qed.

Lemma search_reason_Some raw reason :
  search_reason raw = Some reason →
  ∃ pre post,
    raw = pre ++ "REASON=" ++ reason ++ post
    ∧ reason ≠ "" ∧ no_amp reason ∧ at_amp post
    ∧ ∀ a b, raw = a ++ "REASON=" ++ b →
             (String.length a < String.length pre)%nat → at_amp b.
Proof.
  intros (pre & t & -> & (post & -> & ? & ? & ?)%match_reason_spec & Hfirst)%search_Some.
  exists pre, post. split_and!; [done..|].
  intros a b Hab Hlen. apply match_reason_None. by apply (Hfirst a).
Qed.

Lemma search_reason_None raw :
  search_reason raw = None → ∀ a b, raw = a ++ "REASON=" ++ b → at_amp b.
Proof.
  intros H a b Hab. apply match_reason_None.
  unfold search_reason in H. rewrite search_None in H. by apply (H a).
Qed.



Lemma contains_false t s : contains t s = false ↔ ¬ occurs_in t s.
Proof. rewrite <-contains_spec. by destruct (contains t s). Qed.

(** Without the failure marker, [parse_adif] returns the records of what
    it takes as ADIF. *)
Lemma parse_adif_ok raw :
  ¬ occurs_in "RESULT=FAIL" raw →
  parse_adif raw = Return (records_of (adif_payload raw)).
Proof.
  intros H%contains_false. unfold parse_adif.
  by rewrite H, parse_records_spec.
Qed.

Lemma parse_adif_fail raw :
  occurs_in "RESULT=FAIL" raw →
  parse_adif raw = SysExit ("Error de QRZ: " ++ failure_reason raw) 1.
Proof. intros H%contains_spec. unfold parse_adif. by rewrite H. Qed.



End envelope.

(** ** The parser on the primitives of the interpreter *)

Section interpreter.
Implicit Types (s raw chunk len : string) (c : ascii).
Implicit Types (fields : list (string * string * string)).
Implicit Types (qso : gmap string string) (qsos : list (gmap string string)).

(** With ASCII classes and an [int] without bound the functions are the
    ones above. *)
Lemma rt_ascii_unbounded raw : Rt.parse_adif ascii_unbounded raw = parse_adif raw.
Proof. reflexivity. Qed.

Lemma rt_cpython_findall chunk : Rt.findall cpython chunk = findall chunk.
Proof. reflexivity. Qed.

Lemma rt_cpython_strip s : Rt.strip cpython s = strip s.
Proof. reflexivity. Qed.

Lemma int_limited_short len :
  (String.length len ≤ max_str_digits)%nat → int_limited len = int len.
Proof. intros H. unfold int_limited. by apply Nat.leb_le in H as ->. Qed.

Lemma int_limited_long len :
  (max_str_digits < String.length len)%nat → int_limited len = None.
Proof. intros H. unfold int_limited. by apply Nat.leb_gt in H as ->. Qed.

(** A field whose length is short is stored as above; one whose length is
    long ends the loop with the error of [int]. *)
Lemma rt_store_field_short qso name len value :
  (String.length len ≤ max_str_digits)%nat →
  Rt.store_field cpython qso (name, len, value) = store_field qso (name, len, value).
Proof.
  intros H. unfold Rt.store_field, store_field. cbn [rt_int rt_upper cpython].
  by rewrite int_limited_short.
Qed.

Lemma rt_fields_loop_short fields qso :
  Forall (λ field, (String.length field.1.2 ≤ max_str_digits)%nat) fields →
  Rt.fields_loop cpython fields qso = fields_loop fields qso.
Proof.
  intros H. revert qso. induction H as [|[[name len] value] fields Hlen _ IH];
    intros qso; [done|].
  cbn [Rt.fields_loop fields_loop]. rewrite rt_store_field_short by done.
  destruct (store_field qso (name, len, value)) as [qso'|]; [apply IH|done].
Qed.

Lemma rt_fields_loop_long fields qso :
  Exists (λ field, (max_str_digits < String.length field.1.2)%nat) fields →
  Rt.fields_loop cpython fields qso = None.
Proof.
  intros H. revert qso.
  induction H as [[[name len] value] fields Hlen|field fields _ IH]; intros qso.
  - cbn [Rt.fields_loop]. unfold Rt.store_field. cbn [rt_int cpython fst snd] in *.
    by rewrite int_limited_long.
  - cbn [Rt.fields_loop].
    destruct (Rt.store_field cpython qso field) as [qso'|]; [apply IH|done].
Qed.

Lemma rt_records_loop_short (chunks : list string) qsos :
  (∀ chunk name len value,
      chunk ∈ chunks → (name, len, value) ∈ findall chunk →
      (String.length len ≤ max_str_digits)%nat) →
  Rt.records_loop cpython chunks qsos = records_loop chunks qsos.
Proof.
  revert qsos. induction chunks as [|chunk chunks IH]; intros qsos Hshort; [done|].
  cbn [Rt.records_loop records_loop]. rewrite rt_cpython_strip, rt_cpython_findall.
  assert (∀ qsos', Rt.records_loop cpython chunks qsos' = records_loop chunks qsos')
    as Hrest.
  { intros qsos'. apply IH. intros c name len value Hc.
    apply Hshort. by apply list_elem_of_further. }
  destruct (is_empty (strip chunk)); [apply Hrest|].
  rewrite rt_fields_loop_short.
  - destruct (fields_loop (findall chunk) ∅) as [qso|]; [apply Hrest|done].
  - apply Forall_forall. intros [[name len] value] Hin.
    apply (Hshort chunk name len value); [apply list_elem_of_here|done].
Qed.

Lemma rt_records_loop_long (chunks : list string) qsos :
  (∃ chunk name len value,
      chunk ∈ chunks ∧ (name, len, value) ∈ findall chunk
      ∧ (max_str_digits < String.length len)%nat) →
  Rt.records_loop cpython chunks qsos = None.
Proof.
  intros (chunk & name & len & value & Hchunk & Hfield & Hlen).
  revert qsos. induction Hchunk as [chunk chunks|chunk chunk' chunks _ IH];
    intros qsos; cbn [Rt.records_loop]; rewrite rt_cpython_strip, rt_cpython_findall.
  - destruct (is_empty (strip chunk)) eqn:E.
    { apply is_empty_true in E. rewrite (findall_blank chunk E) in Hfield.
      by apply elem_of_nil in Hfield. }
    rewrite rt_fields_loop_long; [done|].
    apply Exists_exists. by exists (name, len, value).
  - destruct (is_empty (strip chunk')); [by apply IH|].
    destruct (Rt.fields_loop cpython (findall chunk') ∅) as [qso|]; [by apply IH|done].
Qed.

(** What the interpreter makes of an input: the failure of the envelope,
    the error of [int] on a length that is too long, and the records of
    the chunks otherwise. *)
Lemma rt_parse_adif_fail raw :
  occurs_in "RESULT=FAIL" raw →
  Rt.parse_adif cpython raw = SysExit ("Error de QRZ: " ++ failure_reason raw) 1.
Proof. intros H%contains_spec. unfold Rt.parse_adif. by rewrite H. Qed.

Lemma rt_parse_adif_long raw :
  ¬ occurs_in "RESULT=FAIL" raw → long_length (adif_payload raw) →
  Rt.parse_adif cpython raw = Raised "ValueError".
Proof.
  intros H%contains_false Hlong. unfold Rt.parse_adif, Rt.parse_records.
  by rewrite H, rt_records_loop_long.
Qed.

Lemma rt_parse_adif_short raw :
  ¬ occurs_in "RESULT=FAIL" raw → ¬ long_length (adif_payload raw) →
  Rt.parse_adif cpython raw = Return (records_of (adif_payload raw)).
Proof.
  intros H%contains_false Hshort. unfold Rt.parse_adif, Rt.parse_records.
  rewrite H, rt_records_loop_short.
  - fold (parse_records (adif_payload raw)). by rewrite parse_records_spec.
  - intros chunk name len value Hchunk Hfield. apply Nat.nlt_ge. intros Hlen.
    apply Hshort. by exists chunk, name, len, value.
Qed.

(** A text on which the loop ends well has no length that is too long. *)
Lemma rt_parse_records_Some adif_data qsos :
  Rt.parse_records cpython adif_data = Some qsos → ¬ long_length adif_data.
Proof.
  intros E Hlong. unfold Rt.parse_records in E.
  by rewrite rt_records_loop_long in E.
Qed.

(** Whether a text has a length that is too long can be computed. *)
Lemma long_length_dec adif_data : long_length adif_data ∨ ¬ long_length adif_data.
Proof.
  destruct (Rt.parse_records cpython adif_data) as [qsos|] eqn:E.
  - right. by eapply rt_parse_records_Some.
  - left. unfold Rt.parse_records in E.
    destruct (decide (Exists (λ chunk, Exists
        (λ field, (max_str_digits < String.length field.1.2)%nat) (findall chunk))
        (split_eor adif_data))) as [Hex|Hno].
    + apply Exists_exists in Hex as (chunk & Hchunk & Hex).
      apply Exists_exists in Hex as ([[name len] value] & Hfield & Hlen).
      by exists chunk, name, len, value.
    + rewrite rt_records_loop_short in E.
      * fold (parse_records adif_data) in E. by rewrite parse_records_spec in E.
      * intros chunk name len value Hchunk Hfield. apply Nat.nlt_ge. intros Hlen.
        apply Hno. apply Exists_exists. exists chunk. split; [done|].
        apply Exists_exists. by exists (name, len, value).
Qed.

End interpreter.

(** ** Latin-1 text that is ASCII *)

Section latin1.
Implicit Types (s t r a b raw chunk name value : string) (c : ascii).
Implicit Types (fields : list (string * string * string)).
Implicit Types (qso : gmap string string) (qsos : list (gmap string string)).

(** On an ASCII character the classes and the capital of Latin-1 are the
    ASCII ones. *)
Lemma latin1_ascii_char c :
  (Char.code c <? 128)%N = true →
  Latin1.is_word c = Char.is_word c
  ∧ Latin1.is_space c = Char.is_space c
  ∧ Latin1.upper_char c = String (Char.upper c) "".
Proof.
  destruct c as [[] [] [] [] [] [] [] []]; intros H; vm_compute in H;
    first [discriminate H | vm_compute; done].
Qed.

(** An ASCII word character that is no lower-case letter is none in
    Latin-1 either. *)
Lemma latin1_not_lower c :
  Char.is_word c = true → Char.is_lower c = false → Latin1.is_lower c = false.
Proof.
  destruct c as [[] [] [] [] [] [] [] []]; intros Hw Hl; vm_compute in Hw, Hl;
    first [discriminate Hw | discriminate Hl | reflexivity].
Qed.

Lemma ascii_text_cons c s :
  ascii_text (String c s) ↔ (Char.code c <? 128)%N = true ∧ ascii_text s.
Proof. unfold ascii_text. by rewrite all_chars_cons, andb_true_iff. Qed.

Lemma ascii_text_app s t : ascii_text (s ++ t) ↔ ascii_text s ∧ ascii_text t.
Proof. unfold ascii_text. by rewrite all_chars_app, andb_true_iff. Qed.

Lemma latin1_upper_ascii s : ascii_text s → Latin1.upper s = upper s.
Proof.
  induction s as [|c s IH]; [done|]. intros [Hc Hs]%ascii_text_cons.
  cbn [Latin1.upper upper]. destruct (latin1_ascii_char c Hc) as (_ & _ & ->).
  by rewrite str_app_cons, str_app_nil_l, IH.
Qed.

Lemma latin1_lstrip s : ascii_text s → Rt.lstrip cpython_latin1 s = lstrip s.
Proof.
  induction s as [|c s IH]; [done|]. intros [Hc Hs]%ascii_text_cons.
  cbn [Rt.lstrip lstrip rt_space cpython_latin1].
  destruct (latin1_ascii_char c Hc) as (_ & -> & _).
  destruct (Char.is_space c); [by apply IH|done].
Qed.

Lemma latin1_rstrip s : ascii_text s → Rt.rstrip cpython_latin1 s = rstrip s.
Proof.
  induction s as [|c s IH]; [done|]. intros [Hc Hs]%ascii_text_cons.
  cbn [Rt.rstrip rstrip rt_space cpython_latin1].
  destruct (latin1_ascii_char c Hc) as (_ & -> & _). by rewrite IH.
Qed.

Lemma latin1_strip s : ascii_text s → Rt.strip cpython_latin1 s = strip s.
Proof.
  intros Hs. unfold Rt.strip, strip. rewrite latin1_lstrip by done.
  apply latin1_rstrip. by apply all_chars_lstrip.
Qed.

(** What a scanner leaves of an ASCII text is ASCII. *)
Lemma strip_prefix_ascii t s r :
  strip_prefix t s = Some r → ascii_text s → ascii_text r.
Proof. intros ->%strip_prefix_spec Hs. by apply ascii_text_app in Hs as [_ ?]. Qed.

Lemma span1_ascii (p : ascii → bool) s a b :
  span1 p s = Some (a, b) → ascii_text s → ascii_text a ∧ ascii_text b.
Proof. intros (-> & _)%span1_spec Hs. by apply ascii_text_app in Hs. Qed.

Lemma latin1_span_word s :
  ascii_text s → span Latin1.is_word s = span Char.is_word s.
Proof.
  induction s as [|c s IH]; [done|]. intros [Hc Hs]%ascii_text_cons.
  cbn [span]. destruct (latin1_ascii_char c Hc) as (-> & _). by rewrite IH.
Qed.

Lemma latin1_span1_word s :
  ascii_text s → span1 Latin1.is_word s = span1 Char.is_word s.
Proof. intros Hs. unfold span1. by rewrite latin1_span_word. Qed.

Lemma latin1_match_type s :
  ascii_text s → Rt.match_type cpython_latin1 s = match_type s.
Proof.
  intros Hs. unfold Rt.match_type, match_type. cbn [rt_word cpython_latin1].
  destruct (strip_prefix ":" s) as [s1|] eqn:E1; [|done]. simpl_opt.
  by rewrite latin1_span1_word by (by eapply strip_prefix_ascii).
Qed.

Lemma latin1_match_close s :
  ascii_text s → Rt.match_close cpython_latin1 s = match_close s.
Proof.
  intros Hs. unfold Rt.match_close, match_close. by rewrite latin1_match_type.
Qed.

Lemma latin1_match_field s :
  ascii_text s → Rt.match_field cpython_latin1 s = match_field s.
Proof.
  intros Hs. unfold Rt.match_field, match_field. cbn [rt_word cpython_latin1].
  destruct (strip_prefix "<" s) as [s1|] eqn:E1; [|done]. simpl_opt.
  pose proof (strip_prefix_ascii _ _ _ E1 Hs) as H1.
  rewrite latin1_span1_word by done.
  destruct (span1 Char.is_word s1) as [[name s2]|] eqn:E2; [|done]. simpl_opt.
  apply span1_ascii in E2 as [_ H2]; [|done].
  destruct (strip_prefix ":" s2) as [s3|] eqn:E3; [|done]. simpl_opt.
  pose proof (strip_prefix_ascii _ _ _ E3 H2) as H3.
  destruct (span1 Char.is_digit s3) as [[len s4]|] eqn:E4; [|done]. simpl_opt.
  apply span1_ascii in E4 as [_ H4]; [|done].
  by rewrite latin1_match_close.
Qed.

Lemma latin1_findall_from skip s :
  ascii_text s → Rt.findall_from cpython_latin1 skip s = findall_from skip s.
Proof.
  revert skip. induction s as [|c s IH]; intros skip Hs; [done|].
  pose proof Hs as [_ Hs']%ascii_text_cons.
  cbn [Rt.findall_from findall_from]. destruct skip as [|k]; [|by apply IH].
  rewrite latin1_match_field by done.
  destruct (match_field (String c s)) as [[[[name len] value] rest]|];
    [|by apply IH]. f_equal. by apply IH.
Qed.

Lemma latin1_findall chunk :
  ascii_text chunk → Rt.findall cpython_latin1 chunk = findall chunk.
Proof. apply latin1_findall_from. Qed.

(** The names and the values found in an ASCII text are ASCII. *)
Lemma findall_ascii chunk name len value :
  ascii_text chunk → (name, len, value) ∈ findall chunk →
  ascii_text name ∧ ascii_text value.
Proof.
  intros Hs (pre & ty & post & Hchunk & _)%findall_sound. cbn [fst snd] in Hchunk.
  rewrite Hchunk in Hs. unfold tag in Hs. rewrite !ascii_text_app in Hs. tauto.
Qed.

Lemma latin1_store_field qso name len value :
  ascii_text name → ascii_text value →
  Rt.store_field cpython_latin1 qso (name, len, value)
  = Rt.store_field cpython qso (name, len, value).
Proof.
  intros Hn Hv. unfold Rt.store_field. cbn [rt_int rt_upper cpython_latin1 cpython].
  destruct (int_limited len) as [n|]; [|done]. simpl_opt.
  rewrite latin1_upper_ascii by done. rewrite latin1_strip; [done|].
  by apply all_chars_take.
Qed.

Lemma latin1_fields_loop fields qso :
  Forall (λ field, ascii_text field.1.1 ∧ ascii_text field.2) fields →
  Rt.fields_loop cpython_latin1 fields qso = Rt.fields_loop cpython fields qso.
Proof.
  intros H. revert qso.
  induction H as [|[[name len] value] fields [Hn Hv] _ IH]; intros qso; [done|].
  cbn [Rt.fields_loop]. rewrite latin1_store_field by done.
  destruct (Rt.store_field cpython qso (name, len, value)); [apply IH|done].
Qed.

Lemma latin1_records_loop (chunks : list string) qsos :
  Forall ascii_text chunks →
  Rt.records_loop cpython_latin1 chunks qsos = Rt.records_loop cpython chunks qsos.
Proof.
  intros H. revert qsos. induction H as [|chunk chunks Hchunk _ IH]; intros qsos;
    [done|].
  cbn [Rt.records_loop]. rewrite latin1_strip, latin1_findall by done.
  change (Rt.strip cpython chunk) with (strip chunk).
  change (Rt.findall cpython chunk) with (findall chunk).
  destruct (is_empty (strip chunk)); [apply IH|].
  rewrite latin1_fields_loop.
  - destruct (Rt.fields_loop cpython (findall chunk) ∅); [apply IH|done].
  - apply Forall_forall. intros [[name len] value] Hin.
    by apply (findall_ascii chunk name len value).
Qed.

(** The pieces of an ASCII text are ASCII. *)
Lemma split_eor_ascii s : ascii_text s → Forall ascii_text (split_eor s).
Proof.
  apply (split_eor_ind (λ s pieces, ascii_text s → Forall ascii_text pieces)).
  - intros _. by apply Forall_singleton.
  - intros m rest _ IH [_ Hrest]%ascii_text_app.
    apply Forall_cons. split; [done|by apply IH].
  - intros c s' piece pieces _ _ IH [Hc Hs']%ascii_text_cons.
    apply IH in Hs'. apply Forall_cons in Hs' as [Hpiece Hpieces].
    apply Forall_cons. split; [by apply ascii_text_cons|done].
Qed.

(** On an input whose ADIF text is ASCII, reading it as Latin-1 changes
    nothing. *)
Lemma latin1_parse_adif raw :
  ascii_text (adif_payload raw) →
  Rt.parse_adif cpython_latin1 raw = Rt.parse_adif cpython raw.
Proof.
  intros H. unfold Rt.parse_adif, Rt.parse_records.
  by rewrite latin1_records_loop by (by apply split_eor_ascii).
Qed.

Lemma clean_key_upper_case_only (k : string) : clean_key k → upper_case_only k.
Proof.
  intros (_ & [_ Hw] & Hl). unfold upper_case_only.
  induction k as [|c k IH]; [done|].
  rewrite all_chars_cons, andb_true_iff in Hw, Hl. rewrite all_chars_cons.
  destruct Hw as [Hc Hw], Hl as [Hlc Hl]. apply negb_true_iff in Hlc.
  by rewrite (latin1_not_lower c Hc Hlc), IH.
Qed.

End latin1.

(** * The claims on the parser *)

Lemma records_of_lookup adif_data qso k v :
  qso ∈ records_of adif_data → qso !! k = Some v →
  clean_key k ∧ clean_value v ∧ last_tag_value adif_data k v.
Proof.
  intros (chunk & Hchunk & Hrec)%list_elem_of_omap Hkv.
  unfold chunk_record in Hrec.
  assert (qso = record_of (findall chunk)) as ->.
  { destruct (findall chunk); [done|]. by injection Hrec as <-. }
  apply record_of_lookup in Hkv as (fields1 & [[name len] value] & fields2 & Hfs & Hk & Hv & Hlast).
  assert ((name, len, value) ∈ findall chunk) as Hin.
  { rewrite Hfs. apply elem_of_app. right. apply elem_of_cons. by left. }
  apply findall_sound in Hin as (_ & _ & _ & _ & Hname & Hlen & _ & Hvalue & _).
  cbn [fst snd] in *. destruct (int_digits1 _ Hlen) as [n Hn].
  split_and!.
  - subst k. by apply (field_key_upper (name, len, value)).
  - subst v. split_and!.
    + by apply (field_value_no_lt (name, len, value)).
    + apply strip_edges.
    + apply strip_edges.
  - exists chunk, fields1, name, len, value, fields2, n.
    pose proof (field_value_length (name, len, value)) as Hle.
    unfold field_value in Hv, Hle. cbn [fst snd] in Hv, Hle.
    rewrite (declared_length_int _ _ Hn) in Hv, Hle.
    split_and!; [done..|by subst v|by subst v].
Qed.



(** C2, as stated, fails: without a reason in the envelope the failure
    does not carry "unknown". *)
Lemma C2_unknown_counterexample :
  ¬ (∀ raw, occurs_in "RESULT=FAIL" raw →
            fails_with (specified_reason raw) (parse_adif raw)).
Proof.
  intros H. specialize (H "RESULT=FAIL"). unfold fails_with in H.
  assert (occurs_in "RESULT=FAIL" "RESULT=FAIL") as Hin by (by exists "", "").
  specialize (H Hin). vm_compute in H. discriminate H.
Qed.

(** C2, amended.  For every raw input that contains RESULT=FAIL, parsing
    ends the run (the message printed, exit status 1) with a reason that is
    the text after the first REASON= that some character other than an
    ampersand follows, up to the next ampersand or the end of the input,
    verbatim and undecoded; the reason is "desconocido" when there is no
    such REASON=.  So RESULT=FAIL&REASON=Invalid+Key gives the reason
    Invalid+Key. *)
Theorem C2_failure_reason :
  (∀ raw,
      occurs_in "RESULT=FAIL" raw →
      fails_with (failure_reason raw) (parse_adif raw)
      ∧ ((∃ pre post,
             raw = pre ++ "REASON=" ++ failure_reason raw ++ post
             ∧ failure_reason raw ≠ "" ∧ no_amp (failure_reason raw)
             ∧ at_amp post
             ∧ ∀ a b, raw = a ++ "REASON=" ++ b →
                      (String.length a < String.length pre)%nat → at_amp b)
         ∨ (failure_reason raw = "desconocido"
            ∧ ∀ a b, raw = a ++ "REASON=" ++ b → at_amp b)))
  ∧ fails_with "Invalid+Key" (parse_adif "RESULT=FAIL&REASON=Invalid+Key")
  ∧ fails_with "desconocido" (parse_adif "RESULT=FAIL").
Proof.
  split_and!; [|reflexivity..].
  intros raw Hfail. split; [by apply parse_adif_fail|].
  unfold failure_reason. destruct (search_reason raw) as [reason|] eqn:E.
  - left. by apply search_reason_Some.
  - right. split; [done|]. by apply search_reason_None.
Qed.

Lemma C2_failure_reason_witness :
  occurs_in "RESULT=FAIL" "RESULT=FAIL&REASON=&REASON=Invalid+Key&X=1"
  ∧ fails_with (failure_reason "RESULT=FAIL&REASON=&REASON=Invalid+Key&X=1")
      (parse_adif "RESULT=FAIL&REASON=&REASON=Invalid+Key&X=1").
Proof.
  assert (occurs_in "RESULT=FAIL" "RESULT=FAIL&REASON=&REASON=Invalid+Key&X=1") as H.
  { exists "", "&REASON=&REASON=Invalid+Key&X=1". reflexivity. }
  split; [exact H|].
  exact (proj1 (proj1 C2_failure_reason _ H)).
Defined.



(** ** [unquote] *)



(** Any other character is kept. *)
Lemma unquote_plain c s :
  is_percent c = false → unquote (String c s) = String c (unquote s).
Proof.
  intros Hc. unfold unquote. cbn [unquote_from]. rewrite Hc. cbn [andb].
  by destruct s as [|? [|??]].
Qed.

Lemma unquote_no_percent s :
  all_chars (λ c, negb (is_percent c)) s = true → unquote s = s.
Proof.
  induction s as [|c s IH]; [done|].
  rewrite all_chars_cons, andb_true_iff, negb_true_iff. intros [Hc Hs].
  by rewrite unquote_plain, IH.
Qed.



(** C9, as stated, fails: an input without the marker can make the parser
    raise.  The length of a tag goes through [int], and the interpreter
    refuses a text of more than 4300 digits. *)
Lemma C9_long_length_counterexample :
  ¬ (∀ raw, ¬ occurs_in "RESULT=FAIL" raw →
            ∃ qsos, Rt.parse_adif cpython raw = Return qsos).
Proof.
  intros H. destruct (H long_length_tag) as [qsos Hq].
  - apply contains_false. vm_compute. reflexivity.
  - vm_compute in Hq. discriminate Hq.
Qed.

(** C9, amended.  The parser ends the run if and only if the raw input
    contains RESULT=FAIL.  For every other input it returns a list of
    records, possibly empty, unless some tag declares its length in more
    than 4300 digits, and then it raises the [ValueError] of [int]; it
    raises in no other case.  A length of at most 4300 digits always
    converts, and a chunk in which no well-formed tag occurs gives no field
    and no record, whatever malformed tags it holds. *)
Theorem C9_returns_unless_marker_or_long_length (raw : string) :
  ((∃ printed status, Rt.parse_adif cpython raw = SysExit printed status)
   ↔ occurs_in "RESULT=FAIL" raw)
  ∧ ((∃ qsos, Rt.parse_adif cpython raw = Return qsos)
     ↔ ¬ occurs_in "RESULT=FAIL" raw ∧ ¬ long_length (adif_payload raw))
  ∧ ((∃ exception, Rt.parse_adif cpython raw = Raised exception)
     ↔ ¬ occurs_in "RESULT=FAIL" raw ∧ long_length (adif_payload raw))
  ∧ (∀ exception,
        Rt.parse_adif cpython raw = Raised exception → exception = "ValueError")
  ∧ (∀ chunk field,
        field ∈ Rt.findall cpython chunk →
        (String.length field.1.2 ≤ max_str_digits)%nat →
        is_Some (rt_int cpython field.1.2))
  ∧ (∀ chunk,
        (∀ pre name len ty value post,
            word1 name → digits1 len → type_suffix ty →
            chunk ≠ pre ++ tag name len ty ++ value ++ post) →
        Rt.findall cpython chunk = []
        ∧ Rt.fields_loop cpython (Rt.findall cpython chunk) ∅ = Some ∅).
Proof.
  assert (∀ chunk field,
            field ∈ Rt.findall cpython chunk →
            (String.length field.1.2 ≤ max_str_digits)%nat →
            is_Some (rt_int cpython field.1.2)) as Hint.
  { intros chunk field (_ & _ & _ & _ & _ & Hlen & _)%findall_sound Hshort.
    cbn [rt_int cpython]. rewrite int_limited_short by done. by apply int_digits1. }
  assert (∀ chunk,
            (∀ pre name len ty value post,
                word1 name → digits1 len → type_suffix ty →
                chunk ≠ pre ++ tag name len ty ++ value ++ post) →
            Rt.findall cpython chunk = []
            ∧ Rt.fields_loop cpython (Rt.findall cpython chunk) ∅ = Some ∅) as Hnone.
  { intros chunk Hnone. change (Rt.findall cpython chunk) with (findall chunk).
    destruct (findall chunk) as [|field fields] eqn:Ef; [done|].
    assert (field ∈ findall chunk) as Hf by (rewrite Ef; apply elem_of_cons; by left).
    apply findall_sound in Hf as (pre & ty & post & Hchunk & ? & ? & ? & _).
    by destruct (Hnone _ _ _ _ _ _ ltac:(done) ltac:(done) ltac:(done) Hchunk). }
  destruct (contains "RESULT=FAIL" raw) eqn:E.
  - pose proof E as Hin%contains_spec.
    pose proof (rt_parse_adif_fail raw Hin) as Hfail. rewrite Hfail.
    split_and!; [|naive_solver..|done|done].
    split; [done|]. intros _. by eexists _, _.
  - pose proof E as Hout%contains_false.
    destruct (long_length_dec (adif_payload raw)) as [Hlong|Hshort].
    + rewrite (rt_parse_adif_long raw Hout Hlong).
      split_and!; [naive_solver..|done|done].
    + rewrite (rt_parse_adif_short raw Hout Hshort).
      split_and!; [naive_solver..|done|done].
Qed.

Lemma C9_returns_unless_marker_or_long_length_witness :
  (∃ qsos, Rt.parse_adif cpython "<CALL:x>ABC<:3>q<CALL 3>r<eor><a:1:>b" = Return qsos)
  ∧ (∃ exception, Rt.parse_adif cpython long_length_tag = Raised exception).
Proof.
  split.
  - apply (proj1 (proj2 (C9_returns_unless_marker_or_long_length _))). split.
    + apply contains_false. reflexivity.
    + eapply rt_parse_records_Some. vm_compute. reflexivity.
  - apply (proj1 (proj2 (proj2 (C9_returns_unless_marker_or_long_length _)))). split.
    + apply contains_false. vm_compute. reflexivity.
    + exists long_length_tag, "A", (times 4301 "1"), "x". split_and!.
      * vm_compute. apply list_elem_of_here.
      * vm_compute. apply list_elem_of_here.
      * vm_compute. lia.
Defined.

(** C10, as stated, fails: a field name is not always in upper case only.
    The feminine ordinal indicator is a word character and a lower-case
    one, and [upper] leaves it as it is, so the tag of that name gives a
    record whose key is lower case. *)
Lemma C10_lower_case_key_counterexample :
  ¬ (∀ raw qsos qso k v,
        Rt.parse_adif cpython_latin1 raw = Return qsos →
        qso ∈ qsos → qso !! k = Some v → upper_case_only k).
Proof.
  intros H.
  specialize (H ordinal_tag [ {[ ordinal := "x" ]} ] {[ ordinal := "x" ]} ordinal "x").
  assert (upper_case_only ordinal) as Hk.
  { apply H.
    - vm_compute. reflexivity.
    - apply list_elem_of_here.
    - vm_compute. reflexivity. }
  vm_compute in Hk. discriminate Hk.
Qed.

(** C10, amended.  For every input whose ADIF text is made of ASCII
    characters, in every record that the parser returns a field name is in
    upper case only (word characters, none of them a lower-case letter),
    and its value holds no opening bracket, starts and ends with no blank,
    is no longer than the length its tag declares, and is the value of the
    last tag of that name, compared without case, in its chunk. *)
Theorem C10_record_invariant raw qsos qso k v :
  ascii_text (adif_payload raw) →
  Rt.parse_adif cpython_latin1 raw = Return qsos → qso ∈ qsos → qso !! k = Some v →
  clean_key k ∧ upper_case_only k ∧ clean_value v
  ∧ last_tag_value (adif_payload raw) k v.
Proof.
  intros Hascii. rewrite latin1_parse_adif by done.
  destruct (contains "RESULT=FAIL" raw) eqn:E.
  { apply contains_spec in E. by rewrite rt_parse_adif_fail. }
  apply contains_false in E.
  destruct (long_length_dec (adif_payload raw)) as [Hlong|Hshort].
  { by rewrite rt_parse_adif_long. }
  rewrite rt_parse_adif_short by done. intros [= <-] Hqso Hkv.
  destruct (records_of_lookup _ _ _ _ Hqso Hkv) as (Hk & Hv & Hlast).
  split_and!; [done|by apply clean_key_upper_case_only|done|done].
Qed.

Lemma C10_record_invariant_witness :
  clean_key "CALL" ∧ upper_case_only "CALL" ∧ clean_value "x"
  ∧ last_tag_value (adif_payload "<call:3>ABCDEF<CALL:2> x <eor>") "CALL" "x".
Proof.
  apply (C10_record_invariant "<call:3>ABCDEF<CALL:2> x <eor>"
           [ {[ "CALL" := "x" ]} ] {[ "CALL" := "x" ]} "CALL" "x").
  - reflexivity.
  - vm_compute. reflexivity.
  - apply elem_of_cons. left. reflexivity.
  - vm_compute. reflexivity.
Defined.

(** * The claims on the statistics *)

Section statistics.
Implicit Types (qso : gmap string string) (qsos : list (gmap string string)).
Implicit Types (x : string) (S : gset string).

Lemma stats_step_elem sets qso :
  ∀ x,
    (x ∈ (stats_step sets qso).1.1 ↔ x ∈ sets.1.1 ∨ country_value qso = Some x)
    ∧ (x ∈ (stats_step sets qso).1.2 ↔ x ∈ sets.1.2 ∨ band_value qso = Some x)
    ∧ (x ∈ (stats_step sets qso).2 ↔ x ∈ sets.2 ∨ mode_value qso = Some x).
Proof.
  destruct sets as [[C B] M]. intros x.
  unfold stats_step, country_value, band_value, mode_value. cbn [fst snd].
  split_and!.
  - destruct (is_empty (py_or _ _)); set_solver.
  - destruct (is_empty (get qso "BAND" "")); set_solver.
  - destruct (is_empty (get qso "MODE" "")); set_solver.
Qed.

Lemma stats_fold_elem sets qsos :
  ∀ x,
    (x ∈ (foldl stats_step sets qsos).1.1
     ↔ x ∈ sets.1.1 ∨ ∃ qso, qso ∈ qsos ∧ country_value qso = Some x)
    ∧ (x ∈ (foldl stats_step sets qsos).1.2
       ↔ x ∈ sets.1.2 ∨ ∃ qso, qso ∈ qsos ∧ band_value qso = Some x)
    ∧ (x ∈ (foldl stats_step sets qsos).2
       ↔ x ∈ sets.2 ∨ ∃ qso, qso ∈ qsos ∧ mode_value qso = Some x).
Proof.
  revert sets. induction qsos as [|qso qsos IH]; intros sets x.
  - cbn [foldl]. split_and!; (split; [by left|]);
      (intros [?|(? & ?%elem_of_nil & _)]; done).
  - cbn [foldl]. destruct (IH (stats_step sets qso) x) as (Hc & Hb & Hm).
    destruct (stats_step_elem sets qso x) as (Hc' & Hb' & Hm').
    rewrite Hc, Hb, Hm, Hc', Hb', Hm'. setoid_rewrite elem_of_cons.
    split_and!; naive_solver.
Qed.

Lemma stats_loop_elem qsos x :
  (x ∈ (stats_loop qsos).1.1 ↔ ∃ qso, qso ∈ qsos ∧ country_value qso = Some x)
  ∧ (x ∈ (stats_loop qsos).1.2 ↔ ∃ qso, qso ∈ qsos ∧ band_value qso = Some x)
  ∧ (x ∈ (stats_loop qsos).2 ↔ ∃ qso, qso ∈ qsos ∧ mode_value qso = Some x).
Proof.
  destruct (stats_fold_elem (∅, ∅, ∅) qsos x) as (Hc & Hb & Hm).
  unfold stats_loop. rewrite Hc, Hb, Hm. cbn [fst snd].
  split_and!; set_solver.
Qed.

Lemma country_of_py_or qso :
  country_of qso = py_or (get qso "COUNTRY" "") (get qso "DXCC" "").
Proof.
  unfold country_of, py_or, get. by destruct (qso !! "COUNTRY") as [[|??]|].
Qed.

Lemma country_value_spec qso x :
  country_value qso = Some x ↔ country_of qso = x ∧ x ≠ "".
Proof.
  unfold country_value. rewrite <-country_of_py_or.
  destruct (country_of qso) as [|c s]; cbn [is_empty]; naive_solver.
Qed.

Lemma band_value_spec qso x :
  band_value qso = Some x ↔
  ∃ band, qso !! "BAND" = Some band ∧ band ≠ "" ∧ x = lower band.
Proof.
  unfold band_value, get. destruct (qso !! "BAND") as [[|c s]|];
    cbn [default is_empty]; naive_solver.
Qed.

Lemma mode_value_spec qso x :
  mode_value qso = Some x ↔
  ∃ mode, qso !! "MODE" = Some mode ∧ mode ≠ "" ∧ x = upper mode.
Proof.
  unfold mode_value, get. destruct (qso !! "MODE") as [[|c s]|];
    cbn [default is_empty]; naive_solver.
Qed.

(** *** [sorted] *)

Lemma sorted_elem S x : x ∈ sorted S ↔ x ∈ S.
Proof. unfold sorted. by rewrite merge_sort_Permutation, elem_of_elements. Qed.

Lemma sorted_length S : length (sorted S) = size S.
Proof. unfold sorted. by rewrite merge_sort_Permutation. Qed.

Lemma sorted_NoDup S : NoDup (sorted S).
Proof. unfold sorted. rewrite merge_sort_Permutation. apply NoDup_elements. Qed.

Lemma le_ne_lt x y : String.le x y → x ≠ y → String.compare x y = Lt.
Proof.
  unfold String.le, String.leb. intros Hle Hne.
  destruct (String.compare x y) eqn:E; [|done..].
  by apply String.compare_eq_iff in E.
Qed.

Lemma sorted_ascending S : ascending (sorted S).
Proof.
  pose proof (sorted_NoDup S) as Hnd.
  assert (StronglySorted String.le (sorted S)) as Hs.
  { apply StronglySorted_merge_sort; apply _. }
  unfold ascending. induction Hs as [|x l Hs IH Hx]; [constructor|].
  apply NoDup_cons in Hnd as [Hnin Hnd]. constructor; [by apply IH|].
  apply Forall_forall. intros y Hy. apply le_ne_lt.
  - by apply (proj1 (Forall_forall _ _) Hx).
  - intros ->. done.
Qed.

(** A list without repetition that holds one value only. *)
Lemma NoDup_only (l : list string) x :
  NoDup l → (∀ y, y ∈ l ↔ y = x) → l = [x].
Proof.
  intros Hnd Hl. destruct l as [|a l].
  - pose proof (proj2 (Hl x) eq_refl) as H. by apply elem_of_nil in H.
  - assert (a = x) as -> by (apply Hl, elem_of_cons; by left).
    apply NoDup_cons in Hnd as [Hnin _]. destruct l as [|b l]; [done|].
    assert (b = x) as ->.
    { apply Hl. apply elem_of_cons. right. apply elem_of_cons. by left. }
    destruct Hnin. apply elem_of_cons. by left.
Qed.

End statistics.

Lemma compute_stats_fields (qsos : list (gmap string string)) :
  compute_stats qsos =
  {| total := length qsos;
     countries := size (stats_loop qsos).1.1;
     bands := size (stats_loop qsos).1.2;
     modes := size (stats_loop qsos).2;
     country_list := sorted (stats_loop qsos).1.1;
     band_list := sorted (stats_loop qsos).1.2;
     mode_list := sorted (stats_loop qsos).2 |}.
Proof. unfold compute_stats. by destruct (stats_loop qsos) as [[??]?]. Qed.

(** C4. For every list of records: the country of a record is its COUNTRY,
    or its DXCC when COUNTRY is empty or absent, and it is listed verbatim
    when it is not empty; a band is listed in lower case and a mode in
    upper case, empty values left out.  Each list is ascending by code
    point without repetition, and each count is the number of distinct
    values, the length of the list.  Two records with the bands 40M and
    40m give the band count 1 and the band list [40m]. *)
Theorem C4_distinct_values :
  (∀ qsos,
      (∀ x, x ∈ country_list (compute_stats qsos)
            ↔ ∃ qso, qso ∈ qsos ∧ country_of qso = x ∧ x ≠ "")
      ∧ (∀ x, x ∈ band_list (compute_stats qsos)
              ↔ ∃ qso band, qso ∈ qsos ∧ qso !! "BAND" = Some band
                            ∧ band ≠ "" ∧ x = lower band)
      ∧ (∀ x, x ∈ mode_list (compute_stats qsos)
              ↔ ∃ qso mode, qso ∈ qsos ∧ qso !! "MODE" = Some mode
                            ∧ mode ≠ "" ∧ x = upper mode)
      ∧ ascending (country_list (compute_stats qsos))
      ∧ ascending (band_list (compute_stats qsos))
      ∧ ascending (mode_list (compute_stats qsos))
      ∧ countries (compute_stats qsos) = length (country_list (compute_stats qsos))
      ∧ bands (compute_stats qsos) = length (band_list (compute_stats qsos))
      ∧ modes (compute_stats qsos) = length (mode_list (compute_stats qsos)))
  ∧ (∀ qso1 qso2,
        qso1 !! "BAND" = Some "40M" → qso2 !! "BAND" = Some "40m" →
        bands (compute_stats [qso1; qso2]) = 1%nat
        ∧ band_list (compute_stats [qso1; qso2]) = ["40m"]).
Proof.
  assert (∀ qsos x, x ∈ band_list (compute_stats qsos)
            ↔ ∃ qso band, qso ∈ qsos ∧ qso !! "BAND" = Some band
                          ∧ band ≠ "" ∧ x = lower band) as Hband.
  { intros qsos x. rewrite compute_stats_fields. cbn [band_list].
    rewrite sorted_elem. destruct (stats_loop_elem qsos x) as (_ & -> & _).
    setoid_rewrite band_value_spec. naive_solver. }
  split.
  - intros qsos. split_and!; [|done|..].
    + intros x. rewrite compute_stats_fields. cbn [country_list].
      rewrite sorted_elem. destruct (stats_loop_elem qsos x) as (-> & _ & _).
      by setoid_rewrite country_value_spec.
    + intros x. rewrite compute_stats_fields. cbn [mode_list].
      rewrite sorted_elem. destruct (stats_loop_elem qsos x) as (_ & _ & ->).
      setoid_rewrite mode_value_spec. naive_solver.
    + rewrite compute_stats_fields. apply sorted_ascending.
    + rewrite compute_stats_fields. apply sorted_ascending.
    + rewrite compute_stats_fields. apply sorted_ascending.
    + rewrite compute_stats_fields. cbn [countries country_list].
      by rewrite sorted_length.
    + rewrite compute_stats_fields. cbn [bands band_list].
      by rewrite sorted_length.
    + rewrite compute_stats_fields. cbn [modes mode_list].
      by rewrite sorted_length.
  - intros qso1 qso2 H1 H2.
    assert (band_list (compute_stats [qso1; qso2]) = ["40m"]) as Hlist.
    { apply NoDup_only.
      - rewrite compute_stats_fields. apply sorted_NoDup.
      - intros y. rewrite Hband. split.
        + intros (qso & band & Hin & Hb & _ & ->).
          apply elem_of_cons in Hin as [->|Hin].
          { rewrite H1 in Hb. by injection Hb as <-. }
          apply list_elem_of_singleton in Hin as ->.
          rewrite H2 in Hb. by injection Hb as <-.
        + intros ->. exists qso2, "40m". split_and!; [|done..].
          apply elem_of_cons. right. by apply list_elem_of_singleton. }
    split; [|done]. revert Hlist. rewrite compute_stats_fields.
    cbn [bands band_list]. intros Hlist. by rewrite <-sorted_length, Hlist.
Qed.

Lemma C4_distinct_values_witness :
  bands (compute_stats [ {[ "BAND" := "40M"; "MODE" := "ssb" ]};
                         {[ "BAND" := "40m"; "COUNTRY" := "Argentina" ]} ]) = 1%nat
  ∧ band_list (compute_stats [ {[ "BAND" := "40M"; "MODE" := "ssb" ]};
                               {[ "BAND" := "40m"; "COUNTRY" := "Argentina" ]} ])
    = ["40m"].
Proof.
  apply (proj2 C4_distinct_values).
  - vm_compute. reflexivity.
  - vm_compute. reflexivity.
Defined.

(** * The claims on the export *)

Section export.
Implicit Types (qso : gmap string string) (qsos : list (gmap string string)).
Implicit Types (lines : list string).

Lemma rows_loop_spec qsos lines :
  rows_loop qsos lines = (lines ++ omap csv_row qsos)%list.
Proof.
  revert lines. induction qsos as [|qso qsos IH]; intros lines.
  - simpl. by rewrite app_nil_r.
  - cbn [rows_loop omap list_omap]. rewrite IH.
    destruct (csv_row qso); [by rewrite <-app_assoc|done].
Qed.

(** The lines are the header and the rows of the records that have one, in
    the order of the records. *)
Lemma csv_lines_spec qsos :
  csv_lines qsos = "indicativo,fecha,banda,modo" :: omap csv_row qsos.
Proof. apply rows_loop_spec. Qed.

Lemma concat_unlines line lines :
  String.concat newline (line :: lines) ++ newline = unlines (line :: lines).
Proof.
  revert line. induction lines as [|line' lines IH]; intros line; [done|].
  change (String.concat newline (line :: line' :: lines))
    with (line ++ newline ++ String.concat newline (line' :: lines)).
  rewrite !str_app_assoc, IH. done.
Qed.

Lemma csv_row_Some qso : is_Some (csv_row qso) ↔ has_call qso.
Proof.
  unfold csv_row, has_call, get.
  destruct (qso !! "CALL") as [[|c s]|]; cbn [default upper is_empty].
  - split; [by intros [? ?]|]. by intros (? & [= <-] & ?).
  - split; [|done]. intros _. by eexists.
  - split; [by intros [? ?]|]. by intros (? & ? & ?).
Qed.

Lemma csv_row_None qso : csv_row qso = None ↔ ¬ has_call qso.
Proof.
  rewrite <-csv_row_Some. destruct (csv_row qso); [|done].
  split; [done|]. intros H. destruct H. by eexists.
Qed.

Lemma omap_csv_row_all qsos :
  Forall has_call qsos → length (omap csv_row qsos) = length qsos.
Proof.
  induction 1 as [|qso qsos [row Hrow]%csv_row_Some _ IH]; [done|].
  cbn [omap list_omap]. rewrite Hrow. simpl. by rewrite IH.
Qed.

End export.

(** C5. For every list of records, the total of the statistics is the length
    of the whole list, while the export has a data row for a record if and
    only if its CALL, in upper case, is not empty, that is, if and only if
    the record has a call sign that is not empty; the other records are
    left out and the total does not change.  Three records of which one has
    no CALL, the two others having one, give the header and exactly two data
    rows, and the total 3. *)
Theorem C5_total_and_rows :
  (∀ qsos,
      total (compute_stats qsos) = length qsos
      ∧ csv_lines qsos = "indicativo,fecha,banda,modo" :: omap csv_row qsos)
  ∧ (∀ qso,
        (is_Some (csv_row qso) ↔ upper (get qso "CALL" "") ≠ "")
        ∧ (upper (get qso "CALL" "") ≠ "" ↔ has_call qso))
  ∧ (∀ qsos1 qso qsos2,
        qso !! "CALL" = None → Forall has_call (qsos1 ++ qsos2)%list →
        length (qsos1 ++ qsos2)%list = 2%nat →
        length (csv_lines (qsos1 ++ qso :: qsos2)%list) = 3%nat
        ∧ total (compute_stats (qsos1 ++ qso :: qsos2)%list) = 3%nat).
Proof.
  assert (∀ qsos, total (compute_stats qsos) = length qsos) as Htotal.
  { intros qsos. by rewrite compute_stats_fields. }
  split_and!.
  - intros qsos. split; [done|apply csv_lines_spec].
  - intros qso. split.
    + unfold csv_row. destruct (upper (get qso "CALL" "")); cbn [is_empty].
      * split; [by intros [? ?]|done].
      * split; [done|]. intros _. by eexists.
    + rewrite <-csv_row_Some. unfold csv_row.
      destruct (upper (get qso "CALL" "")); cbn [is_empty].
      * split; [done|by intros [? ?]].
      * split; [|done]. intros _. by eexists.
  - intros qsos1 qso qsos2 Hnone Hall Hlen. split.
    + rewrite csv_lines_spec. cbn [length]. f_equal.
      rewrite omap_app. cbn [omap list_omap].
      assert (csv_row qso = None) as ->.
      { apply csv_row_None. intros (call & Hcall & _). congruence. }
      rewrite <-omap_app, omap_csv_row_all; done.
    + rewrite Htotal, length_app. cbn [length].
      rewrite length_app in Hlen. lia.
Qed.

Lemma C5_total_and_rows_witness :
  length (csv_lines ([ {[ "CALL" := "W1ABC" ]} ]
                       ++ {[ "BAND" := "40m" ]} :: [ {[ "CALL" := "lu9ang" ]} ])%list)
  = 3%nat
  ∧ total (compute_stats ([ {[ "CALL" := "W1ABC" ]} ]
                            ++ {[ "BAND" := "40m" ]} :: [ {[ "CALL" := "lu9ang" ]} ])%list)
    = 3%nat.
Proof.
  apply (proj2 (proj2 C5_total_and_rows)).
  - vm_compute. reflexivity.
  - repeat constructor; eexists; (split; [vm_compute; reflexivity|discriminate]).
  - reflexivity.
Defined.

(** C6, as stated, fails: a date of eight characters that are not all
    digits is not passed through. *)
Lemma C6_eight_digits_counterexample :
  ¬ (∀ date, ¬ eight_digits date → format_date date = date).
Proof.
  intros H. specialize (H "2024-1-5").
  assert (¬ eight_digits "2024-1-5") as Hno by (by intros [_ [=]]).
  specialize (H Hno). vm_compute in H. discriminate H.
Qed.

(** C6, amended.  The date column of a row is the QSO_DATE of its record,
    read as YYYYMMDD and written as DD/MM/YYYY when it has exactly eight
    characters, digits or not, so 20240115 becomes 15/01/2024, and passed
    through unchanged when it has any other length, the empty text
    included, so 2024 stays 2024. *)
Theorem C6_date_column :
  (∀ qso row,
      csv_row qso = Some row →
      ∃ call band mode,
        row = call ++ "," ++ format_date (get qso "QSO_DATE" "") ++ ","
                   ++ band ++ "," ++ mode)
  ∧ (∀ year month day,
        String.length year = 4%nat → String.length month = 2%nat →
        String.length day = 2%nat →
        format_date (year ++ month ++ day) = day ++ "/" ++ month ++ "/" ++ year)
  ∧ (∀ date,
        String.length date = 8%nat →
        date = slice 0 4 date ++ slice 4 6 date ++ slice 6 8 date
        ∧ String.length (slice 0 4 date) = 4%nat
        ∧ String.length (slice 4 6 date) = 2%nat
        ∧ String.length (slice 6 8 date) = 2%nat)
  ∧ (∀ date, String.length date ≠ 8%nat → format_date date = date)
  ∧ format_date "20240115" = "15/01/2024"
  ∧ format_date "2024" = "2024"
  ∧ format_date "" = "".
Proof.
  split_and!; [| | | |reflexivity..].
  - intros qso row. unfold csv_row.
    destruct (is_empty (upper (get qso "CALL" ""))); [done|].
    intros [= <-]. by eexists _, _, _.
  - intros year month day Hy Hm Hd.
    do 4 (destruct year as [|? year]; [discriminate Hy|]).
    destruct year; [|discriminate Hy].
    do 2 (destruct month as [|? month]; [discriminate Hm|]).
    destruct month; [|discriminate Hm].
    do 2 (destruct day as [|? day]; [discriminate Hd|]).
    destruct day; [|discriminate Hd].
    reflexivity.
  - intros date Hlen.
    do 8 (destruct date as [|? date]; [discriminate Hlen|]).
    destruct date; [|discriminate Hlen]. by split_and!.
  - intros date Hlen. unfold format_date.
    by destruct (Nat.eqb_spec (String.length date) 8).
Qed.

Lemma C6_date_column_witness :
  format_date ("2024" ++ "01" ++ "15") = "15" ++ "/" ++ "01" ++ "/" ++ "2024".
Proof.
  apply (proj1 (proj2 C6_date_column) "2024" "01" "15"); reflexivity.
Defined.

Lemma unlines_app (lines1 lines2 : list string) :
  unlines (lines1 ++ lines2)%list = unlines lines1 ++ unlines lines2.
Proof.
  induction lines1 as [|line lines1 IH]; [done|].
  cbn [app unlines]. by rewrite IH, !str_app_assoc.
Qed.

Lemma build_logbook_csv_spec (qsos : list (gmap string string)) :
  build_logbook_csv qsos
  = unlines ("indicativo,fecha,banda,modo" :: omap csv_row qsos).
Proof.
  unfold build_logbook_csv. rewrite csv_lines_spec. apply concat_unlines.
Qed.

(** C7. For every list of records, the text of the export is the header
    line [indicativo,fecha,banda,modo] and then one line per record that
    has a call sign, in the order of the records, each line ended by a
    newline, the last one too.  A line is CALL in upper case, the date,
    BAND and MODE, joined by commas, BAND and MODE as they are and a
    question mark for one that the record has not; CALL and the date have
    no placeholder. *)
Theorem C7_export_text :
  (∀ qsos,
      build_logbook_csv qsos
      = unlines ("indicativo,fecha,banda,modo" :: omap csv_row qsos))
  ∧ (∀ qsos1 qsos2,
        build_logbook_csv (qsos1 ++ qsos2)%list
        = build_logbook_csv qsos1 ++ unlines (omap csv_row qsos2))
  ∧ (∀ qso,
        has_call qso →
        csv_row qso
        = Some (upper (get qso "CALL" "") ++ ","
                ++ format_date (get qso "QSO_DATE" "") ++ ","
                ++ or_placeholder (qso !! "BAND") ++ ","
                ++ or_placeholder (qso !! "MODE")))
  ∧ (∀ qso, ¬ has_call qso → csv_row qso = None)
  ∧ build_logbook_csv
      [ {[ "CALL" := "w1abc"; "QSO_DATE" := "20240115"; "BAND" := "40m";
           "MODE" := "SSB" ]};
        {[ "BAND" := "20m" ]};
        {[ "CALL" := "LU9ANG" ]} ]
    = unlines [ "indicativo,fecha,banda,modo"; "W1ABC,15/01/2024,40m,SSB";
                "LU9ANG,,?,?" ].
Proof.
  split_and!.
  - apply build_logbook_csv_spec.
  - intros qsos1 qsos2. rewrite !build_logbook_csv_spec, omap_app.
    by rewrite app_comm_cons, unlines_app.
  - intros qso [row Hrow]%csv_row_Some. revert Hrow. unfold csv_row.
    destruct (is_empty (upper (get qso "CALL" ""))); [done|]. intros _.
    unfold get at 3 4, or_placeholder.
    by destruct (qso !! "BAND"), (qso !! "MODE").
  - intros qso. apply csv_row_None.
  - by vm_compute.
Qed.

Lemma C7_export_text_witness :
  csv_row qso_without_band
  = Some (upper (get qso_without_band "CALL" "") ++ ","
          ++ format_date (get qso_without_band "QSO_DATE" "") ++ ","
          ++ or_placeholder (qso_without_band !! "BAND") ++ ","
          ++ or_placeholder (qso_without_band !! "MODE")).
Proof.
  apply (proj1 (proj2 (proj2 C7_export_text))).
  exists "lu9ang". split; [vm_compute; reflexivity|discriminate].
Defined.

(** * Further properties of the parser *)

(** ** Logs joined by a marker *)

Section joined.
Implicit Types (s t a b m : string) (c : ascii).





End joined.





(** ** Brackets that are no tag *)

Section brackets.
Implicit Types (s t w header body : string) (c : ascii).



End brackets.

(** ** The keys of a record *)

Section keys.
Implicit Types (fields : list (string * string * string)).


End keys.



(** * Further properties of the statistics *)

(** ** The statistics and the order of the records *)

Section order.
Implicit Types (qso : gmap string string) (qsos : list (gmap string string)).

Lemma stats_loop_same qsos1 qsos2 :
  (∀ qso, qso ∈ qsos1 ↔ qso ∈ qsos2) → stats_loop qsos1 = stats_loop qsos2.
Proof.
  intros Hsame.
  destruct (stats_loop qsos1) as [[C1 B1] M1] eqn:E1.
  destruct (stats_loop qsos2) as [[C2 B2] M2] eqn:E2.
  assert (∀ x, (x ∈ C1 ↔ x ∈ C2) ∧ (x ∈ B1 ↔ x ∈ B2) ∧ (x ∈ M1 ↔ x ∈ M2)) as H.
  { intros x. destruct (stats_loop_elem qsos1 x) as (Hc1 & Hb1 & Hm1).
    destruct (stats_loop_elem qsos2 x) as (Hc2 & Hb2 & Hm2).
    rewrite E1 in Hc1, Hb1, Hm1. rewrite E2 in Hc2, Hb2, Hm2.
    cbn [fst snd] in *. rewrite Hc1, Hb1, Hm1, Hc2, Hb2, Hm2.
    by setoid_rewrite Hsame. }
  f_equal; [f_equal|]; apply set_eq; intros x; by apply H.
Qed.

Lemma length_omap_le {A B} (f : A → option B) (l : list A) :
  (length (omap f l) ≤ length l)%nat.
Proof.
  induction l as [|x l IH]; [done|]. cbn [omap list_omap].
  destruct (f x); simpl; lia.
Qed.

(** A set holds no more values than the list it was filled from. *)
Lemma stats_loop_size qsos :
  (size (stats_loop qsos).1.1 ≤ length qsos)%nat
  ∧ (size (stats_loop qsos).1.2 ≤ length qsos)%nat
  ∧ (size (stats_loop qsos).2 ≤ length qsos)%nat.
Proof.
  assert (∀ (f : gmap string string → option string) (S : gset string),
            (∀ x, x ∈ S ↔ ∃ qso, qso ∈ qsos ∧ f qso = Some x) →
            (size S ≤ length qsos)%nat) as Hsize.
  { intros f S HS. trans (length (omap f qsos)).
    - apply submseteq_length, NoDup_submseteq; [apply NoDup_elements|].
      intros x Hx%elem_of_elements. apply list_elem_of_omap. by apply HS.
    - apply length_omap_le. }
  split_and!.
  - apply (Hsize country_value). intros x. by destruct (stats_loop_elem qsos x) as (? & _).
  - apply (Hsize band_value). intros x. by destruct (stats_loop_elem qsos x) as (_ & ? & _).
  - apply (Hsize mode_value). intros x. by destruct (stats_loop_elem qsos x) as (_ & _ & ?).
Qed.

End order.

(** X3. The statistics do not depend on the order of the records nor on
    how often a record occurs: two lists in which the same records occur
    give the same three lists of values and the same three counts.  Only
    the total tells them apart. *)
Theorem compute_stats_same_records (qsos1 qsos2 : list (gmap string string)) :
  (∀ qso, qso ∈ qsos1 ↔ qso ∈ qsos2) →
  country_list (compute_stats qsos1) = country_list (compute_stats qsos2)
  ∧ band_list (compute_stats qsos1) = band_list (compute_stats qsos2)
  ∧ mode_list (compute_stats qsos1) = mode_list (compute_stats qsos2)
  ∧ countries (compute_stats qsos1) = countries (compute_stats qsos2)
  ∧ bands (compute_stats qsos1) = bands (compute_stats qsos2)
  ∧ modes (compute_stats qsos1) = modes (compute_stats qsos2).
Proof.
  intros Hsame. rewrite !compute_stats_fields. cbn [country_list band_list
    mode_list countries bands modes].
  by rewrite (stats_loop_same qsos1 qsos2 Hsame).
Qed.

Lemma compute_stats_same_records_witness :
  country_list (compute_stats [qso_without_band; ∅])
  = country_list (compute_stats [∅; qso_without_band; ∅])
  ∧ band_list (compute_stats [qso_without_band; ∅])
    = band_list (compute_stats [∅; qso_without_band; ∅])
  ∧ mode_list (compute_stats [qso_without_band; ∅])
    = mode_list (compute_stats [∅; qso_without_band; ∅])
  ∧ countries (compute_stats [qso_without_band; ∅])
    = countries (compute_stats [∅; qso_without_band; ∅])
  ∧ bands (compute_stats [qso_without_band; ∅])
    = bands (compute_stats [∅; qso_without_band; ∅])
  ∧ modes (compute_stats [qso_without_band; ∅])
    = modes (compute_stats [∅; qso_without_band; ∅]).
Proof.
  apply (compute_stats_same_records [qso_without_band; ∅] [∅; qso_without_band; ∅]).
  intros qso. rewrite !elem_of_cons, !elem_of_nil. tauto.
Defined.

(** X4. No count exceeds the total: there are at most as many distinct
    countries, bands and modes as there are records, so a log without
    record has none of them. *)
Theorem compute_stats_counts_le_total (qsos : list (gmap string string)) :
  (countries (compute_stats qsos) ≤ total (compute_stats qsos))%nat
  ∧ (bands (compute_stats qsos) ≤ total (compute_stats qsos))%nat
  ∧ (modes (compute_stats qsos) ≤ total (compute_stats qsos))%nat.
Proof.
  rewrite compute_stats_fields. cbn [countries bands modes total].
  apply stats_loop_size.
Qed.

(** * Further properties of the export *)

(** ** The date of a row *)

Lemma length_format_date date :
  String.length (format_date date)
  = if Nat.eqb (String.length date) 8 then 10%nat else String.length date.
Proof.
  unfold format_date. destruct (Nat.eqb_spec (String.length date) 8) as [H|H]; [|done].
  do 8 (destruct date as [|? date]; [discriminate H|]).
  by destruct date.
Qed.

Lemma format_date_idemp date : format_date (format_date date) = format_date date.
Proof.
  pose proof (length_format_date date) as Hlen.
  unfold format_date at 1.
  destruct (Nat.eqb_spec (String.length (format_date date)) 8) as [H|H]; [|done].
  rewrite H in Hlen. by destruct (Nat.eqb_spec (String.length date) 8).
Qed.

(** X5. The date of a row never has eight characters: a date of eight
    characters becomes one of ten and any other date keeps its length.  So
    the date that has been put in the form of the export is left as it is
    when it is put in that form again. *)
Theorem format_date_stable (date : string) :
  String.length (format_date date) ≠ 8%nat
  ∧ String.length (format_date date)
    = (if Nat.eqb (String.length date) 8 then 10%nat else String.length date)
  ∧ format_date (format_date date) = format_date date.
Proof.
  pose proof (length_format_date date) as Hlen.
  split_and!; [|done|apply format_date_idemp].
  rewrite Hlen. destruct (Nat.eqb_spec (String.length date) 8); [done|lia].
Qed.

(** * The page

    The properties of [update_html], from the pattern to the four
    replacements. *)

Section decimal.

Lemma string_of_uint_digits (d : Decimal.uint) :
  all_chars Char.is_digit (NilEmpty.string_of_uint d) = true.
Proof. induction d; simpl; [done|by rewrite all_chars_cons..]. Qed.

Lemma to_uint_not_Nil (n : nat) : Nat.to_uint n ≠ Decimal.Nil.
Proof.
  rewrite <-(Unsigned.of_to n) at 1. rewrite Unsigned.to_of.
  unfold Decimal.unorm. by destruct (Decimal.nzhead (Nat.to_uint n)).
Qed.

(** The text of a count is one or more digits. *)
Lemma str_digits1 (n : nat) : digits1 (str n).
Proof.
  split; [|apply string_of_uint_digits].
  unfold str. pose proof (to_uint_not_Nil n). by destruct (Nat.to_uint n).
Qed.

End decimal.

Section page.
Implicit Types (s t u pre post rest label value d blanks : string) (c : ascii).

Lemma digits_no_lt d : all_chars Char.is_digit d = true → no_lt d.
Proof. apply all_chars_impl. intros [[] [] [] [] [] [] [] []]; done. Qed.

Lemma match_stat_spec label s group1 group2 rest :
  match_stat label s = Some (group1, group2, rest) ↔
  ∃ d blanks,
    s = slot label d blanks ++ rest ∧ digits1 d ∧ blank blanks
    ∧ group1 = stat_number_open
    ∧ group2 = "</div>" ++ blanks ++ stat_label_open ++ label.
Proof.
  unfold match_stat, slot. split.
  - intros H.
    apply bind_Some in H as (s1 & ->%strip_prefix_spec & H).
    apply bind_Some in H as ([d s2] & H2 & H).
    apply span1_spec in H2 as (-> & ? & ? & _).
    apply bind_Some in H as (s3 & ->%strip_prefix_spec & H).
    destruct (span Char.is_space s3) as [blanks s4] eqn:H4.
    apply span_spec in H4 as (-> & ? & _).
    apply bind_Some in H as (s5 & ->%strip_prefix_spec & H).
    apply bind_Some in H as (s6 & ->%strip_prefix_spec & H).
    injection H as <- <- <-. exists d, blanks.
    split_and!; [by rewrite !str_app_assoc|done..].
  - intros (d & blanks & -> & [? ?] & ? & -> & ->).
    rewrite !str_app_assoc.
    apply bind_Some. eexists. split; [by apply strip_prefix_app|].
    apply bind_Some. eexists (d, _). split.
    { apply span1_spec. split_and!; [done..|]. by apply not_starts_with_cons. }
    apply bind_Some. eexists. split; [by apply strip_prefix_app|].
    rewrite span_app; [|done|by apply not_starts_with_cons].
    apply bind_Some. eexists. split; [by apply strip_prefix_app|].
    apply bind_Some. eexists. split; [by apply strip_prefix_app|done].
Qed.

Lemma match_stat_slot label d blanks rest :
  digits1 d → blank blanks →
  match_stat label (slot label d blanks ++ rest)
  = Some (stat_number_open, "</div>" ++ blanks ++ stat_label_open ++ label, rest).
Proof. intros. apply match_stat_spec. by exists d, blanks. Qed.

Lemma slot_cons label d blanks :
  ∃ a, slot label d blanks = String "<" a.
Proof. by eexists. Qed.

Lemma subn_from_drop label value k s :
  subn_from label value k s = subn label value (drop k s).
Proof.
  revert k. induction s as [|c s IH]; intros [|k]; try done.
  simpl. by rewrite IH.
Qed.

(** The equations of [subn]: a character that starts no match is kept, and
    a statistic of the label gets the value for its digits. *)
Lemma subn_skip label value c s :
  match_stat label (String c s) = None →
  subn label value (String c s)
  = (String c (subn label value s).1, (subn label value s).2).
Proof.
  intros H. unfold subn at 1. cbn [subn_from]. rewrite H.
  fold (subn label value s). by destruct (subn label value s).
Qed.

Lemma subn_slot label value d blanks rest :
  digits1 d → blank blanks →
  subn label value (slot label d blanks ++ rest)
  = (slot label value blanks ++ (subn label value rest).1,
     S (subn label value rest).2).
Proof.
  intros Hd Hb. pose proof (match_stat_slot label d blanks rest Hd Hb) as H.
  destruct (slot_cons label d blanks) as [a Ha]. rewrite Ha in *.
  rewrite str_app_cons in *. unfold subn at 1. cbn [subn_from]. rewrite H.
  rewrite subn_from_drop, str_length_app.
  replace (String.length a + String.length rest - String.length rest)%nat
    with (String.length a) by lia.
  rewrite str_drop_app_length. destruct (subn label value rest) as [out n].
  cbn [fst snd]. f_equal. unfold slot. by rewrite !str_app_assoc.
Qed.

(** Induction along the matches of [subn]. *)
Lemma subn_ind label (P : string → Prop) :
  P "" →
  (∀ c s, match_stat label (String c s) = None → P s → P (String c s)) →
  (∀ d blanks rest, digits1 d → blank blanks → P rest →
                    P (slot label d blanks ++ rest)) →
  ∀ s, P s.
Proof.
  intros Hnil Hskip Hslot s.
  remember (String.length s) as n eqn:Hn. revert s Hn.
  induction n as [n IH] using lt_wf_ind. intros [|c s] Hn; [done|].
  destruct (match_stat label (String c s)) as [[[g1 g2] rest]|] eqn:E.
  - apply match_stat_spec in E as (d & blanks & E & ? & ? & _). rewrite E.
    apply Hslot; [done..|]. eapply IH; [|done]. subst n. rewrite E.
    destruct (slot_cons label d blanks) as [a ->].
    rewrite str_length_app. simpl. lia.
  - apply Hskip; [done|]. eapply IH; [|done]. subst n. simpl. lia.
Qed.

End page.

Section slots.
Implicit Types (s t u a pre post rest label value d blanks : string) (c : ascii).

(** *** Where a statistic can start *)

(** Text without an opening bracket holds the start of no tag. *)
Lemma no_lt_split a Z pre t :
  no_lt a → a ++ Z = pre ++ String "<" t →
  ∃ pre', pre = a ++ pre' ∧ Z = pre' ++ String "<" t.
Proof.
  unfold no_lt. revert pre. induction a as [|c a IH]; intros pre Ha H.
  - by exists pre.
  - rewrite all_chars_cons, andb_true_iff, negb_true_iff in Ha.
    destruct Ha as [Hc Ha]. destruct pre as [|c' pre].
    + rewrite str_app_cons, str_app_nil_l in H. injection H as -> _. done.
    + rewrite !str_app_cons in H. injection H as <- H.
      destruct (IH pre Ha H) as (pre' & -> & ->). by exists pre'.
Qed.

Lemma begins_open_lt t : begins_open t → ∃ t', t = String "<" t'.
Proof. intros [u ->]. by eexists. Qed.

(** No statistic starts inside another one. *)
Lemma slot_split label d blanks X pre t :
  all_chars Char.is_digit d = true → blank blanks → no_lt label →
  slot label d blanks ++ X = pre ++ t → begins_open t →
  pre = "" ∨ ∃ pre', pre = slot label d blanks ++ pre' ∧ X = pre' ++ t.
Proof.
  intros Hd Hb Hl Heq Ht. destruct pre as [|c0 pre]; [by left|]. right.
  destruct (begins_open_lt _ Ht) as [t' Ht'].
  assert (∃ a1, stat_number_open = String "<" a1 ∧ no_lt a1) as (a1 & Ha1 & Hna1).
  { eexists. split; reflexivity. }
  assert (∃ a3, stat_label_open = String "<" a3 ∧ no_lt a3) as (a3 & Ha3 & Hna3).
  { eexists. split; reflexivity. }
  assert (∀ u v, String "<" (String "/" v) ≠ stat_number_open ++ u) as Hclose.
  { intros u v. unfold stat_number_open. rewrite !str_app_cons. discriminate. }
  assert (∀ u v, stat_label_open ++ v ≠ stat_number_open ++ u) as Hlabel.
  { intros u v. unfold stat_number_open, stat_label_open.
    rewrite !str_app_cons. discriminate. }
  assert (slot label d blanks ++ X
          = String "<" ((a1 ++ d) ++ String "<"
              ((String "/" ("div>" ++ blanks)) ++ String "<" ((a3 ++ label) ++ X))))
    as Hslot.
  { unfold slot. rewrite Ha1, Ha3. by norm_app. }
  rewrite Hslot in Heq. rewrite (str_app_cons c0 pre) in Heq.
  injection Heq as <- Heq. rewrite Ht' in Heq.
  (* the digits *)
  apply no_lt_split in Heq as (pre1 & -> & Heq).
  2:{ unfold no_lt. rewrite all_chars_app. apply andb_true_iff. split; [done|].
      by apply digits_no_lt. }
  destruct pre1 as [|c1 pre1].
  { exfalso. rewrite str_app_nil_l in Heq. rewrite <-Ht' in Heq.
    destruct Ht as [u ->]. by apply Hclose in Heq. }
  rewrite (str_app_cons c1 pre1) in Heq. injection Heq as <- Heq.
  (* the closing tag and the blanks *)
  apply no_lt_split in Heq as (pre2 & -> & Heq).
  2:{ unfold no_lt. rewrite all_chars_cons, all_chars_app.
      apply andb_true_iff. split; [done|]. apply andb_true_iff. split; [done|].
      by apply blank_no_lt. }
  destruct pre2 as [|c2 pre2].
  { exfalso. rewrite str_app_nil_l in Heq. rewrite <-Ht' in Heq.
    destruct Ht as [u ->]. apply (Hlabel u (label ++ X)).
    by rewrite Ha3, str_app_cons, <-Heq, str_app_assoc. }
  rewrite (str_app_cons c2 pre2) in Heq. injection Heq as <- Heq.
  (* the opening tag of the label and the label *)
  apply no_lt_split in Heq as (pre3 & -> & Heq).
  2:{ unfold no_lt. rewrite all_chars_app. apply andb_true_iff. split; done. }
  exists pre3. split; [|by rewrite Ht'].
  replace (slot label d blanks) with (slot label d blanks ++ "") by apply str_app_nil_r.
  unfold slot. rewrite Ha1, Ha3. by norm_app.
Qed.


Lemma slot_not_nil label d blanks X : slot label d blanks ++ X ≠ "".
Proof. by destruct (slot_cons label d blanks) as [a ->]. Qed.

Lemma slot_begins_open label d blanks X : begins_open (slot label d blanks ++ X).
Proof. unfold slot. eexists. by rewrite !str_app_assoc. Qed.

(** A run and what stops it are read off a text in one way only. *)
Lemma span_app_inj (p : ascii → bool) a1 R1 a2 R2 :
  all_chars p a1 = true → all_chars p a2 = true →
  ¬ starts_with p R1 → ¬ starts_with p R2 →
  a1 ++ R1 = a2 ++ R2 → a1 = a2 ∧ R1 = R2.
Proof.
  intros H1 H2 HR1 HR2 Heq.
  pose proof (span_app p a1 R1 H1 HR1) as E1.
  pose proof (span_app p a2 R2 H2 HR2) as E2.
  rewrite Heq, E2 in E1. by injection E1 as -> ->.
Qed.

(** Two statistics at the start of one text have the same digits and the
    same blanks. *)
Lemma slot_inj label1 d1 blanks1 X1 label2 d2 blanks2 X2 :
  all_chars Char.is_digit d1 = true → all_chars Char.is_digit d2 = true →
  blank blanks1 → blank blanks2 →
  slot label1 d1 blanks1 ++ X1 = slot label2 d2 blanks2 ++ X2 →
  d1 = d2 ∧ blanks1 = blanks2 ∧ label1 ++ X1 = label2 ++ X2.
Proof.
  intros Hd1 Hd2 Hb1 Hb2. unfold slot. rewrite !str_app_assoc.
  intros H%(inj (String.append _)).
  apply (span_app_inj Char.is_digit) in H as [-> H];
    [|done|done|by apply not_starts_with_cons..].
  apply (inj (String.append _)) in H.
  apply (span_app_inj Char.is_space) in H as [-> H];
    [|done|done|by apply not_starts_with_cons..].
  by apply (inj (String.append _)) in H.
Qed.

(** *** What [subn] copies *)

(** A text in which no statistic can start is copied. *)
Lemma subn_copied label value a s Y :
  (subn label value s).1 = a ++ Y →
  (∀ pre t, a ++ Y = pre ++ t → (String.length pre < String.length a)%nat →
            ¬ begins_open t) →
  ∃ s0, s = a ++ s0 ∧ Y = (subn label value s0).1.
Proof.
  revert s. induction a as [|c a IH]; intros s Hs Hfree; [by exists s|].
  destruct s as [|c0 s]; [done|].
  destruct (match_stat label (String c0 s)) as [[[g1 g2] rest]|] eqn:E.
  - apply match_stat_spec in E as (d & blanks & E & ? & ? & _).
    rewrite E, subn_slot in Hs by done. cbn [fst] in Hs.
    destruct (Hfree "" (String c a ++ Y) eq_refl); [simpl; lia|].
    rewrite <-Hs. apply slot_begins_open.
  - rewrite subn_skip in Hs by done. cbn [fst] in Hs.
    rewrite str_app_cons in Hs. injection Hs as -> Hs.
    destruct (IH s Hs) as (s0 & -> & ->); [|by exists s0].
    intros pre t Hpre Hlen. apply (Hfree (String c pre) t).
    + by rewrite !str_app_cons, Hpre.
    + simpl. lia.
Qed.

(** A statistic at the start of the new text was at the start of the old
    one, when the character before its digits was kept. *)
Lemma slot_copied label value other d blanks post c s :
  all_chars Char.is_digit d = true → blank blanks → no_lt other →
  String c (subn label value s).1 = slot other d blanks ++ post →
  ∃ s0, String c s = slot other d blanks ++ s0 ∧ post = (subn label value s0).1.
Proof.
  intros Hd Hb Hl Heq. destruct (slot_cons other d blanks) as [a Ha].
  rewrite Ha, str_app_cons in Heq. injection Heq as -> Heq.
  destruct (subn_copied label value a s post Heq) as (s0 & -> & ->).
  - intros pre t Hpre Hlen Ht.
    destruct (slot_split other d blanks post (String "<" pre) t Hd Hb Hl)
      as [?|(pre' & Hpre' & _)]; [|done|done|].
    + by rewrite Ha, !str_app_cons, Hpre.
    + apply (f_equal String.length) in Hpre'.
      rewrite Ha, str_length_app in Hpre'. simpl in Hpre'. lia.
  - exists s0. by rewrite Ha, str_app_cons.
Qed.

(** *** The statistics of the label *)

(** After the replacement every statistic of the label shows the value. *)
Lemma subn_updated label value s pre d blanks post :
  digits1 value → no_lt label →
  (subn label value s).1 = pre ++ slot label d blanks ++ post →
  digits1 d → blank blanks → d = value.
Proof.
  intros [_ Hv] Hl. revert pre.
  induction s as [|c s Hnone IH|d0 blanks0 rest Hd0 Hb0 IH]
    using (subn_ind label); intros pre Hs [Hne Hd] Hb.
  - symmetry in Hs. apply str_app_eq_nil in Hs as [_ Hs].
    by apply slot_not_nil in Hs.
  - rewrite subn_skip in Hs by done. cbn [fst] in Hs.
    destruct pre as [|c' pre].
    + rewrite str_app_nil_l in Hs.
      apply slot_copied in Hs as (s0 & Hs0 & _); [|done..].
      assert (is_Some (match_stat label (String c s))) as [? ?]; [|congruence].
      rewrite Hs0. eexists. by apply match_stat_slot.
    + rewrite str_app_cons in Hs. injection Hs as _ Hs. by apply (IH pre).
  - rewrite subn_slot in Hs by done. cbn [fst] in Hs.
    destruct (slot_split label value blanks0 _ pre _ Hv Hb0 Hl Hs)
      as [->|(pre' & -> & Hrest)].
    + apply slot_begins_open.
    + rewrite str_app_nil_l in Hs. by apply slot_inj in Hs as (-> & _).
    + by apply (IH pre').
Qed.

(** A text whose statistics of the label show the value already is not
    changed. *)
Lemma subn_fixed label value s :
  (∀ pre d blanks post,
      s = pre ++ slot label d blanks ++ post → digits1 d → blank blanks →
      d = value) →
  (subn label value s).1 = s.
Proof.
  induction s as [|c s Hnone IH|d0 blanks0 rest Hd0 Hb0 IH]
    using (subn_ind label); intros Hall.
  - done.
  - rewrite subn_skip by done. cbn [fst]. f_equal. apply IH.
    intros pre d blanks post -> Hd Hb.
    by apply (Hall (String c pre) d blanks post).
  - rewrite subn_slot by done. cbn [fst].
    rewrite (Hall "" d0 blanks0 rest) by done. f_equal. apply IH.
    intros pre d blanks post -> Hd Hb.
    apply (Hall (slot label d0 blanks0 ++ pre) d blanks post); [|done..].
    by rewrite !str_app_assoc.
Qed.

(** *** The statistics of the other labels *)

(** The statistics of another label in the new text are those of the old
    text. *)
Lemma subn_other_from label value other s pre d blanks post :
  digits1 value → no_lt label → no_lt other → apart label other →
  (subn label value s).1 = pre ++ slot other d blanks ++ post →
  digits1 d → blank blanks →
  ∃ pre0 post0, s = pre0 ++ slot other d blanks ++ post0.
Proof.
  intros [_ Hv] Hl Ho Hapart. revert pre.
  induction s as [|c s Hnone IH|d0 blanks0 rest Hd0 Hb0 IH]
    using (subn_ind label); intros pre Hs [Hne Hd] Hb.
  - symmetry in Hs. apply str_app_eq_nil in Hs as [_ Hs].
    by apply slot_not_nil in Hs.
  - rewrite subn_skip in Hs by done. cbn [fst] in Hs.
    destruct pre as [|c' pre].
    + rewrite str_app_nil_l in Hs.
      apply slot_copied in Hs as (s0 & Hs0 & _); [|done..].
      by exists "", s0.
    + rewrite str_app_cons in Hs. injection Hs as _ Hs.
      destruct (IH pre Hs) as (pre0 & post0 & ->); [done..|].
      by exists (String c pre0), post0.
  - rewrite subn_slot in Hs by done. cbn [fst] in Hs.
    destruct (slot_split label value blanks0 _ pre _ Hv Hb0 Hl Hs)
      as [->|(pre' & -> & Hrest)].
    + apply slot_begins_open.
    + rewrite str_app_nil_l in Hs. apply slot_inj in Hs as (_ & _ & Hs); [|done..].
      by apply Hapart in Hs.
    + destruct (IH pre' Hrest) as (pre0 & post0 & ->); [done..|].
      exists (slot label d0 blanks0 ++ pre0), post0. by rewrite !str_app_assoc.
Qed.

(** A text in which no statistic starts is copied, forwards. *)
Lemma subn_copy label value a s0 :
  (∀ pre t, a ++ s0 = pre ++ t → (String.length pre < String.length a)%nat →
            ¬ begins_open t) →
  (subn label value (a ++ s0)).1 = a ++ (subn label value s0).1.
Proof.
  induction a as [|c a IH]; intros Hfree; [done|].
  rewrite str_app_cons. rewrite subn_skip.
  - cbn [fst]. rewrite str_app_cons. f_equal. apply IH.
    intros pre t Hpre Hlen. apply (Hfree (String c pre) t).
    + by rewrite !str_app_cons, Hpre.
    + simpl. lia.
  - destruct (match_stat label _) as [[[g1 g2] rest]|] eqn:E; [|done].
    apply match_stat_spec in E as (d & blanks & E & _).
    destruct (Hfree "" (String c a ++ s0) eq_refl); [simpl; lia|].
    rewrite str_app_cons, E. apply slot_begins_open.
Qed.

(** The statistics of another label in the old text are in the new one. *)
Lemma subn_other_to label value other s pre0 d blanks post0 :
  digits1 value → no_lt label → no_lt other → apart label other →
  s = pre0 ++ slot other d blanks ++ post0 →
  digits1 d → blank blanks →
  ∃ pre post, (subn label value s).1 = pre ++ slot other d blanks ++ post.
Proof.
  intros [_ Hv] Hl Ho Hapart. revert pre0.
  induction s as [|c s Hnone IH|d0 blanks0 rest Hd0 Hb0 IH]
    using (subn_ind label); intros pre0 Hs [Hne Hd] Hb.
  - symmetry in Hs. apply str_app_eq_nil in Hs as [_ Hs].
    by apply slot_not_nil in Hs.
  - destruct pre0 as [|c' pre0].
    + rewrite str_app_nil_l in Hs. exists "".
      destruct (slot_cons other d blanks) as [a Ha].
      rewrite Hs, Ha, str_app_cons. rewrite Ha, str_app_cons in Hs.
      injection Hs as -> ->. rewrite subn_skip by done.
      cbn [fst]. rewrite subn_copy.
      * eexists. by rewrite str_app_nil_l, str_app_cons.
      * intros pre t Hpre Hlen Ht.
        destruct (slot_split other d blanks post0 (String "<" pre) t Hd Hb Ho)
          as [?|(pre' & Hpre' & _)]; [|done|done|].
        -- by rewrite Ha, !str_app_cons, Hpre.
        -- apply (f_equal String.length) in Hpre'.
           rewrite Ha, str_length_app in Hpre'. simpl in Hpre'. lia.
    + rewrite str_app_cons in Hs. injection Hs as _ Hs.
      destruct (IH pre0 Hs) as (pre & post & Hout); [done..|].
      rewrite subn_skip by done. cbn [fst]. rewrite Hout.
      by exists (String c pre), post.
  - pose proof (proj2 Hd0) as Hd0'.
    destruct (slot_split label d0 blanks0 rest pre0 (slot other d blanks ++ post0)
                Hd0' Hb0 Hl Hs) as [->|(pre' & -> & Hrest)].
    + apply slot_begins_open.
    + rewrite str_app_nil_l in Hs. apply slot_inj in Hs as (_ & _ & Hs); [|done..].
      by apply Hapart in Hs.
    + destruct (IH pre' Hrest) as (pre & post & Hout); [done..|].
      rewrite subn_slot by done. cbn [fst]. rewrite Hout.
      exists (slot label value blanks0 ++ pre), post. by rewrite !str_app_assoc.
Qed.

End slots.

Section page_update.
Implicit Types (s html pre post label value other d blanks : string) (c : ascii).
Implicit Types (stats : stats).

Lemma has_slot_cons label c s : has_slot label s → has_slot label (String c s).
Proof.
  intros (pre & d & blanks & post & -> & ? & ?).
  by exists (String c pre), d, blanks, post.
Qed.

(** A label is found as often as it has statistics: not at all exactly
    when it has none. *)
Lemma subn_count_pos label value s :
  (0 < (subn label value s).2)%nat ↔ has_slot label s.
Proof.
  split.
  - induction s as [|c s Hnone IH|d0 blanks0 rest Hd0 Hb0 IH] using (subn_ind label).
    + simpl. lia.
    + rewrite subn_skip by done. cbn [snd]. intros H. by apply has_slot_cons, IH.
    + intros _. by exists "", d0, blanks0, rest.
  - intros (pre & d & blanks & post & -> & Hd & Hb).
    induction pre as [|c pre IH].
    + rewrite str_app_nil_l, subn_slot by done. cbn [snd]. lia.
    + rewrite str_app_cons.
      destruct (match_stat label (String c (pre ++ slot label d blanks ++ post)))
        as [[[g1 g2] rest]|] eqn:E.
      * apply match_stat_spec in E as (d' & blanks' & -> & ? & ? & _).
        rewrite subn_slot by done. cbn [snd]. lia.
      * by rewrite subn_skip.
Qed.

Lemma erase_digits_app s t :
  erase_digits (s ++ t) = erase_digits s ++ erase_digits t.
Proof.
  induction s as [|c s IH]; [done|]. rewrite str_app_cons. simpl.
  destruct (Char.is_digit c); [done|]. by rewrite str_app_cons, IH.
Qed.

Lemma erase_digits_digits d : all_chars Char.is_digit d = true → erase_digits d = "".
Proof.
  induction d as [|c d IH]; [done|].
  rewrite all_chars_cons, andb_true_iff. intros [Hc Hd]. simpl. by rewrite Hc, IH.
Qed.

Lemma erase_digits_slot label d blanks :
  all_chars Char.is_digit d = true →
  erase_digits (slot label d blanks) = erase_digits (slot label "" blanks).
Proof.
  intros Hd. unfold slot. rewrite !(erase_digits_app stat_number_open).
  rewrite (erase_digits_app d), (erase_digits_digits d Hd).
  by rewrite !str_app_nil_l.
Qed.

(** The replacement changes digits only. *)
Lemma subn_erase_digits label value s :
  digits1 value → erase_digits (subn label value s).1 = erase_digits s.
Proof.
  intros [_ Hv].
  induction s as [|c s Hnone IH|d0 blanks0 rest Hd0 Hb0 IH] using (subn_ind label).
  - done.
  - rewrite subn_skip by done. cbn [fst]. simpl. by rewrite IH.
  - rewrite subn_slot by done. cbn [fst].
    rewrite !erase_digits_app, IH.
    rewrite (erase_digits_slot label value blanks0 Hv).
    by rewrite (erase_digits_slot label d0 blanks0 (proj2 Hd0)).
Qed.

Lemma has_slot_subn label value other s :
  digits1 value → no_lt label → no_lt other → apart label other →
  has_slot other (subn label value s).1 ↔ has_slot other s.
Proof.
  intros Hv Hl Ho Ha. split.
  - intros (pre & d & blanks & post & Hs & Hd & Hb).
    destruct (subn_other_from label value other s pre d blanks post)
      as (pre0 & post0 & ->); [done..|]. by exists pre0, d, blanks, post0.
  - intros (pre0 & d & blanks & post0 & Hs & Hd & Hb).
    destruct (subn_other_to label value other s pre0 d blanks post0)
      as (pre & post & Hout); [done..|]. by exists pre, d, blanks, post.
Qed.

(** The statistics of the label itself stay where they are. *)
Lemma has_slot_subn_same label value s :
  digits1 value → no_lt label →
  has_slot label (subn label value s).1 ↔ has_slot label s.
Proof.
  intros Hv Hl. split.
  - induction s as [|c s Hnone IH|d0 blanks0 rest Hd0 Hb0 IH] using (subn_ind label).
    + done.
    + rewrite subn_skip by done. cbn [fst].
      intros ([|c' pre] & d & blanks & post & Hs & Hd & Hb).
      * rewrite str_app_nil_l in Hs.
        apply slot_copied in Hs as (s0 & Hs0 & _); [|by apply Hd|done..].
        by exists "", d, blanks, s0.
      * rewrite str_app_cons in Hs. injection Hs as _ Hs.
        apply has_slot_cons, IH. by exists pre, d, blanks, post.
    + intros _. by exists "", d0, blanks0, rest.
  - induction s as [|c s Hnone IH|d0 blanks0 rest Hd0 Hb0 IH] using (subn_ind label).
    + done.
    + rewrite subn_skip by done. cbn [fst].
      intros ([|c' pre] & d & blanks & post & Hs & Hd & Hb).
      * rewrite str_app_nil_l in Hs.
        assert (is_Some (match_stat label (String c s))) as [? ?]; [|congruence].
        rewrite Hs. eexists. by apply match_stat_slot.
      * rewrite str_app_cons in Hs. injection Hs as _ Hs.
        apply has_slot_cons, IH. by exists pre, d, blanks, post.
    + intros _. rewrite subn_slot by done. cbn [fst].
      by exists "", value, blanks0, (subn label value rest).1.
Qed.

(** The four steps of [update_html]. *)
Lemma update_html_steps stats html :
  let h1 := (subn "QSOs Totales" (str (total stats)) html) in
  let h2 := (subn "Países" (str (countries stats)) h1.1) in
  let h3 := (subn "Bandas" (str (bands stats)) h2.1) in
  let h4 := (subn "Modos" (str (modes stats)) h3.1) in
  update_html stats html
  = (h4.1, [ report "QSOs Totales" (str (total stats)) h1.2;
             report "Países" (str (countries stats)) h2.2;
             report "Bandas" (str (bands stats)) h3.2;
             report "Modos" (str (modes stats)) h4.2 ]).
Proof.
  unfold update_html, replacements. cbn [replace_loop].
  destruct (subn "QSOs Totales" _ html) as [h1 n1]. cbn [fst snd].
  destruct (subn "Países" _ h1) as [h2 n2]. cbn [fst snd].
  destruct (subn "Bandas" _ h2) as [h3 n3]. cbn [fst snd].
  by destruct (subn "Modos" _ h3) as [h4 n4].
Qed.

Lemma apart_first c1 s1 c2 s2 : c1 ≠ c2 → apart (String c1 s1) (String c2 s2).
Proof. intros Hc u v. rewrite !str_app_cons. by intros [= ? _]. Qed.

End page_update.

Ltac label_facts :=
  first [ apply str_digits1 | by apply apart_first | reflexivity | done ].

Ltac from_step H :=
  let pre0 := fresh "pre" in
  let post0 := fresh "post" in
  apply subn_other_from in H as (pre0 & post0 & H); [|label_facts..].

Section page_written.
Implicit Types (html pre post label value d blanks : string) (stats : stats).

(** After the four replacements a statistic of one of the four labels
    shows the value of its label. *)
Lemma update_html_slot_value stats html label value pre d blanks post :
  (label, value) ∈ replacements stats →
  (update_html stats html).1 = pre ++ slot label d blanks ++ post →
  digits1 d → blank blanks → d = value.
Proof.
  intros Hin Hs Hd Hb. rewrite update_html_steps in Hs. cbn [fst] in Hs.
  unfold replacements in Hin.
  apply elem_of_cons in Hin as [[= -> ->]|Hin].
  { from_step Hs. from_step Hs. from_step Hs.
    eapply subn_updated; [| |exact Hs|done|done]; label_facts. }
  apply elem_of_cons in Hin as [[= -> ->]|Hin].
  { from_step Hs. from_step Hs.
    eapply subn_updated; [| |exact Hs|done|done]; label_facts. }
  apply elem_of_cons in Hin as [[= -> ->]|Hin].
  { from_step Hs.
    eapply subn_updated; [| |exact Hs|done|done]; label_facts. }
  apply list_elem_of_singleton in Hin as [= -> ->].
  eapply subn_updated; [| |exact Hs|done|done]; label_facts.
Qed.

(** A page whose statistics show the values already is written back as it
    is. *)
Lemma update_html_fixed stats html :
  (∀ label value pre d blanks post,
      (label, value) ∈ replacements stats →
      html = pre ++ slot label d blanks ++ post → digits1 d → blank blanks →
      d = value) →
  (update_html stats html).1 = html.
Proof.
  intros Hall. rewrite update_html_steps. cbn [fst].
  assert (∀ label value, (label, value) ∈ replacements stats →
            (subn label value html).1 = html) as Hfix.
  { intros label value Hin. apply subn_fixed.
    intros pre d blanks post. by apply Hall. }
  unfold replacements in Hfix.
  rewrite (Hfix "QSOs Totales"), (Hfix "Países"), (Hfix "Bandas"), (Hfix "Modos");
    [done|repeat first [apply list_elem_of_here | apply list_elem_of_further]..].
Qed.

(** The page has a statistic of a label after the four replacements
    exactly when it had one before. *)
Lemma update_html_has_slot stats html label value :
  (label, value) ∈ replacements stats →
  has_slot label (update_html stats html).1 ↔ has_slot label html.
Proof.
  intros Hin. rewrite update_html_steps. cbn [fst]. unfold replacements in Hin.
  apply elem_of_cons in Hin as [[= -> ->]|Hin].
  { rewrite !has_slot_subn by label_facts. apply has_slot_subn_same; label_facts. }
  apply elem_of_cons in Hin as [[= -> ->]|Hin].
  { rewrite !(has_slot_subn _ _ "Países") by label_facts.
    rewrite has_slot_subn_same by label_facts. apply has_slot_subn; label_facts. }
  apply elem_of_cons in Hin as [[= -> ->]|Hin].
  { rewrite !(has_slot_subn _ _ "Bandas") by label_facts.
    rewrite has_slot_subn_same by label_facts.
    rewrite !(has_slot_subn _ _ "Bandas") by label_facts. done. }
  apply list_elem_of_singleton in Hin as [= -> ->].
  rewrite has_slot_subn_same by label_facts.
  rewrite !(has_slot_subn _ _ "Modos") by label_facts. done.
Qed.

Lemma report_reported label value s found :
  (found ↔ has_slot label s) →
  reported label value found (report label value (subn label value s).2).
Proof.
  intros Hfound. pose proof (subn_count_pos label value s) as Hpos.
  destruct (subn label value s).2 as [|n]; cbn [report].
  - right. split; [|done]. rewrite Hfound, <-Hpos. lia.
  - left. split; [|done]. rewrite Hfound, <-Hpos. lia.
Qed.

End page_written.

(** X6. What [update_html] writes: for each of the four labels, the page
    written has a statistic of the label exactly when the page read had
    one, and every statistic of the label in the page written shows the
    value of that label, whatever number the page showed before and
    whatever other statistics stand around it. *)
Theorem update_html_shows_stats (stats : stats) (html label value : string) :
  (label, value) ∈ replacements stats →
  (has_slot label (update_html stats html).1 ↔ has_slot label html)
  ∧ ∀ pre d blanks post,
      (update_html stats html).1 = pre ++ slot label d blanks ++ post →
      digits1 d → blank blanks → d = value.
Proof.
  intros Hin. split; [by apply (update_html_has_slot stats html label value)|].
  intros pre d blanks post. by apply update_html_slot_value.
Qed.

Lemma update_html_shows_stats_witness :
  (has_slot "Modos" (update_html (compute_stats [qso_without_band]) sample_page).1
   ↔ has_slot "Modos" sample_page)
  ∧ ∀ pre d blanks post,
      (update_html (compute_stats [qso_without_band]) sample_page).1
      = pre ++ slot "Modos" d blanks ++ post →
      digits1 d → blank blanks → d = "1".
Proof.
  apply (update_html_shows_stats (compute_stats [qso_without_band])
           sample_page "Modos" "1").
  do 3 apply list_elem_of_further. apply list_elem_of_here.
Defined.

(** X7. Running [update_html] again on the page it has written, with the
    same statistics, writes the same page: the second run finds every
    number in place. *)
Theorem update_html_idempotent (stats : stats) (html : string) :
  (update_html stats (update_html stats html).1).1 = (update_html stats html).1.
Proof.
  apply update_html_fixed. intros label value pre d blanks post Hin Hs.
  by apply (update_html_slot_value stats html label value pre d blanks post).
Qed.

(** X8. [update_html] changes digits only: the page written and the page
    read are the same text once the digits are taken out of both, so no
    tag, label or other text of the page is touched. *)
Theorem update_html_digits_only (stats : stats) (html : string) :
  erase_digits (update_html stats html).1 = erase_digits html.
Proof.
  rewrite update_html_steps. cbn [fst].
  by rewrite !subn_erase_digits by apply str_digits1.
Qed.

(** X9. The lines that [update_html] prints: one line per label, in the
    order of the four labels, that says found with the value exactly when
    the page, as it was read, has a statistic of that label, and not found
    otherwise.  A replacement made for an earlier label neither hides nor
    creates a statistic of a later one. *)
Theorem update_html_reports (stats : stats) (html : string) :
  Forall2 (λ '(label, value) line, reported label value (has_slot label html) line)
    (replacements stats) (update_html stats html).2.
Proof.
  rewrite update_html_steps. cbn [snd]. unfold replacements.
  apply Forall2_cons. split; [by apply report_reported|].
  apply Forall2_cons. split.
  { apply report_reported. symmetry. apply has_slot_subn; label_facts. }
  apply Forall2_cons. split.
  { apply report_reported. symmetry. rewrite !has_slot_subn; [done|label_facts..]. }
  apply Forall2_cons. split; [|apply Forall2_nil; done].
  apply report_reported. symmetry. rewrite !has_slot_subn; [done|label_facts..].
Qed.

(** * The run of the program *)

Ltac run_main :=
  cbv [main mbind action_mbind action_bind mret action_mret action_ret
       print print_exit fetch_qsos parse_adif_step update_html_step
       update_logbook_csv];
  cbn [stdout index_html logbook_csv fst snd].

Section run.
Implicit Types (qrz : string → response) (api_key raw html : string) (w : world).
Implicit Types (qsos : list (gmap string string)).

Lemma parse_adif_cases raw :
  (occurs_in "RESULT=FAIL" raw
   ∧ Rt.parse_adif cpython raw
     = SysExit ("Error de QRZ: " ++ failure_reason raw) 1)
  ∨ (¬ occurs_in "RESULT=FAIL" raw ∧ long_length (adif_payload raw)
     ∧ Rt.parse_adif cpython raw = Raised "ValueError")
  ∨ (¬ occurs_in "RESULT=FAIL" raw
     ∧ Rt.parse_adif cpython raw = Return (records_of (adif_payload raw))
     ∧ parse_adif raw = Return (records_of (adif_payload raw))).
Proof.
  destruct (contains "RESULT=FAIL" raw) eqn:E.
  - left. apply contains_spec in E. split; [done|]. by apply rt_parse_adif_fail.
  - right. apply contains_false in E.
    destruct (long_length_dec (adif_payload raw)) as [Hlong|Hshort].
    + left. split_and!; [done..|]. by apply rt_parse_adif_long.
    + right. split_and!; [done| |by apply parse_adif_ok].
      by apply rt_parse_adif_short.
Qed.

(** [main] ends in one of the six ways. *)
Lemma main_ends qrz api_key w :
  main_end (qrz api_key) w (main qrz api_key w).1 (main qrz api_key w).2.
Proof.
  run_main. destruct (qrz api_key) as [raw|exception].
  - cbn [stdout index_html logbook_csv fst snd].
    destruct (parse_adif_cases raw) as [[Hfail ->]|[(Hok & Hlong & ->)|(Hok & E & _)]].
    { cbn [stdout index_html logbook_csv fst snd]. by eapply end_failure. }
    { cbn [stdout index_html logbook_csv fst snd]. by eapply end_long_length. }
    rewrite E. destruct (records_of (adif_payload raw)) as [|qso qsos];
      cbn [stdout index_html logbook_csv fst snd].
    + by eapply end_no_record.
    + destruct (index_html w) as [html|] eqn:Ehtml;
        cbn [stdout index_html logbook_csv fst snd].
      * destruct (update_html _ html) as [html' printed] eqn:Eu.
        cbn [stdout index_html logbook_csv fst snd].
        eapply end_done; try done. cbn [index_html]. by rewrite Eu.
      * by eapply end_no_page.
  - cbn [stdout index_html logbook_csv fst snd]. by eapply end_no_answer.
Qed.

Lemma omap_csv_row_length qsos :
  (length (omap csv_row qsos) ≤ length qsos)%nat
  ∧ (length (omap csv_row qsos) = length qsos ↔ Forall has_call qsos).
Proof.
  split; [apply length_omap_le|]. split; [|apply omap_csv_row_all].
  induction qsos as [|qso qsos IH]; [done|]. cbn [omap list_omap].
  destruct (csv_row qso) as [row|] eqn:E.
  - cbn [length]. intros [= H]. apply Forall_cons. split; [|by apply IH].
    apply csv_row_Some. by eexists.
  - intros H. pose proof (length_omap_le csv_row qsos). simpl in H. lia.
Qed.

End run.

(** X10. When [main] returns, both files are written from the same
    records: the request was answered with a text that [parse_adif] turns
    into records, at least one, there was a page, the page now is what
    [update_html] makes of it with the statistics of those records, and the
    export is their [build_logbook_csv]. *)
Theorem main_returns_writes (qrz : string → response) (api_key : string) (w : world) :
  (main qrz api_key w).2 = Return tt →
  ∃ raw qsos html,
    qrz api_key = Answer raw ∧ Rt.parse_adif cpython raw = Return qsos
    ∧ qsos ≠ []
    ∧ index_html w = Some html
    ∧ index_html (main qrz api_key w).1
      = Some (update_html (compute_stats qsos) html).1
    ∧ logbook_csv (main qrz api_key w).1 = Some (build_logbook_csv qsos).
Proof.
  pose proof (main_ends qrz api_key w) as Hend.
  destruct Hend as [| | | | |raw qsos html w' Hr Hp Hne Hh Hi Hl]; intros Hret;
    try discriminate Hret.
  by exists raw, qsos, html.
Qed.

Lemma main_returns_writes_witness :
  ∃ raw qsos html,
    Answer sample_log = Answer raw ∧ Rt.parse_adif cpython raw = Return qsos
    ∧ qsos ≠ []
    ∧ Some sample_page = Some html
    ∧ index_html (main (λ _, Answer sample_log) "KEY"
                    {| stdout := []; index_html := Some sample_page;
                       logbook_csv := None |}).1
      = Some (update_html (compute_stats qsos) html).1
    ∧ logbook_csv (main (λ _, Answer sample_log) "KEY"
                     {| stdout := []; index_html := Some sample_page;
                        logbook_csv := None |}).1
      = Some (build_logbook_csv qsos).
Proof.
  apply (main_returns_writes (λ _, Answer sample_log) "KEY"
           {| stdout := []; index_html := Some sample_page; logbook_csv := None |}).
  vm_compute. reflexivity.
Defined.

(** X11. When [main] ends by [sys.exit], the status is 1, the message is
    the last line printed, and the two files are as they were.  There are
    three such ends: the request failed, the answer carries RESULT=FAIL,
    or the answer gave no record. *)
Theorem main_exit_cases (qrz : string → response) (api_key : string) (w : world)
    (printed : string) (status : nat) :
  (main qrz api_key w).2 = SysExit printed status →
  status = 1%nat
  ∧ last (stdout (main qrz api_key w).1) = Some printed
  ∧ index_html (main qrz api_key w).1 = index_html w
  ∧ logbook_csv (main qrz api_key w).1 = logbook_csv w
  ∧ ((∃ exception, qrz api_key = Failure exception
                   ∧ printed = "Error conectando a QRZ: " ++ exception)
     ∨ (∃ raw, qrz api_key = Answer raw ∧ occurs_in "RESULT=FAIL" raw
               ∧ printed = "Error de QRZ: " ++ failure_reason raw)
     ∨ (∃ raw, qrz api_key = Answer raw ∧ Rt.parse_adif cpython raw = Return []
               ∧ printed = "⚠️  No se encontraron QSOs. Verifica tu API key.")).
Proof.
  run_main. destruct (qrz api_key) as [raw|exception];
    cbn [stdout index_html logbook_csv fst snd].
  2:{ intros [= <- <-]. rewrite last_snoc. split_and!; [done..|].
      left. by exists exception. }
  destruct (parse_adif_cases raw) as [[Hfail E]|[(Hok & Hlong & E)|(Hok & E & _)]];
    rewrite E.
  { cbn [stdout index_html logbook_csv fst snd]. intros [= <- <-].
    rewrite last_snoc. split_and!; [done..|]. right. left. by exists raw. }
  { done. }
  destruct (records_of (adif_payload raw)) as [|qso qsos] eqn:Eq;
    cbn [stdout index_html logbook_csv fst snd].
  { intros [= <- <-]. rewrite last_snoc. split_and!; [done..|].
    right. right. by exists raw. }
  destruct (index_html w) as [html|]; cbn [stdout index_html logbook_csv fst snd];
    [|done].
  by destruct (update_html _ html).
Qed.

Lemma main_exit_cases_witness :
  1%nat = 1%nat
  ∧ last (stdout (main (λ _, Failure "timed out") "KEY"
                    {| stdout := []; index_html := Some sample_page;
                       logbook_csv := None |}).1)
    = Some "Error conectando a QRZ: timed out"
  ∧ index_html (main (λ _, Failure "timed out") "KEY"
                  {| stdout := []; index_html := Some sample_page;
                     logbook_csv := None |}).1
    = Some sample_page
  ∧ logbook_csv (main (λ _, Failure "timed out") "KEY"
                   {| stdout := []; index_html := Some sample_page;
                      logbook_csv := None |}).1
    = None
  ∧ ((∃ exception, Failure "timed out" = Failure exception
                   ∧ "Error conectando a QRZ: timed out"
                     = "Error conectando a QRZ: " ++ exception)
     ∨ (∃ raw, Failure "timed out" = Answer raw ∧ occurs_in "RESULT=FAIL" raw
               ∧ "Error conectando a QRZ: timed out"
                 = "Error de QRZ: " ++ failure_reason raw)
     ∨ (∃ raw, Failure "timed out" = Answer raw
               ∧ Rt.parse_adif cpython raw = Return []
               ∧ "Error conectando a QRZ: timed out"
                 = "⚠️  No se encontraron QSOs. Verifica tu API key.")).
Proof.
  apply (main_exit_cases (λ _, Failure "timed out") "KEY"
           {| stdout := []; index_html := Some sample_page; logbook_csv := None |}
           "Error conectando a QRZ: timed out" 1).
  reflexivity.
Defined.

(** X12. After a run that returns, the line on the export tells the number
    of records parsed, while the export holds the header and a row for
    each record with a call sign only: the rows can be fewer than the
    number printed, and are as many exactly when every record has a call
    sign. *)
Theorem main_rows_written (qrz : string → response) (api_key : string) (w : world) :
  (main qrz api_key w).2 = Return tt →
  ∃ raw qsos,
    qrz api_key = Answer raw ∧ parse_adif raw = Return qsos
    ∧ "  ✓ " ++ str (length qsos) ++ " QSOs escritos en data/logbook.csv"
        ∈ stdout (main qrz api_key w).1
    ∧ logbook_csv (main qrz api_key w).1
      = Some (unlines ("indicativo,fecha,banda,modo" :: omap csv_row qsos))
    ∧ (length (omap csv_row qsos) ≤ length qsos)%nat
    ∧ (length (omap csv_row qsos) = length qsos ↔ Forall has_call qsos).
Proof.
  run_main. destruct (qrz api_key) as [raw|exception];
    cbn [stdout index_html logbook_csv fst snd]; [|done].
  destruct (parse_adif_cases raw) as [[Hfail ->]|[(Hok & Hlong & ->)|(Hok & E & E')]];
    [done..|].
  rewrite E. destruct (records_of (adif_payload raw)) as [|qso qsos] eqn:Eq;
    cbn [stdout index_html logbook_csv fst snd]; [done|].
  destruct (index_html w) as [html|]; cbn [stdout index_html logbook_csv fst snd];
    [|done].
  destruct (update_html _ html) as [html' printed].
  cbn [stdout index_html logbook_csv fst snd]. intros _.
  exists raw, (qso :: qsos). split_and!; [done|congruence| | |..].
  - apply elem_of_app. left. apply elem_of_app. right. apply list_elem_of_here.
  - by rewrite build_logbook_csv_spec.
  - apply omap_csv_row_length.
  - apply omap_csv_row_length.
Qed.

Lemma main_rows_written_witness :
  ∃ raw qsos,
    Answer sample_log = Answer raw ∧ parse_adif raw = Return qsos
    ∧ "  ✓ " ++ str (length qsos) ++ " QSOs escritos en data/logbook.csv"
        ∈ stdout (main (λ _, Answer sample_log) "KEY"
                    {| stdout := []; index_html := Some sample_page;
                       logbook_csv := None |}).1
    ∧ logbook_csv (main (λ _, Answer sample_log) "KEY"
                     {| stdout := []; index_html := Some sample_page;
                        logbook_csv := None |}).1
      = Some (unlines ("indicativo,fecha,banda,modo" :: omap csv_row qsos))
    ∧ (length (omap csv_row qsos) ≤ length qsos)%nat
    ∧ (length (omap csv_row qsos) = length qsos ↔ Forall has_call qsos).
Proof.
  apply (main_rows_written (λ _, Answer sample_log) "KEY"
           {| stdout := []; index_html := Some sample_page; logbook_csv := None |}).
  vm_compute. reflexivity.
Defined.
